(** * Everythingx: generation orchestrator, operation poller and sketch sandbox

    A shallow embedding of [src/Home.tsx] and [src/components/CodePreview.tsx]
    and the properties of the specification proved (or refuted) on it.

    JavaScript strings are sequences of UTF-16 code units; they are modelled
    as [list N].  Asynchronous functions are modelled by explicit state
    passing over the React state they update, together with the trace of the
    outbound calls they make; the answers of the outside world (the generation
    service, the clock, the embedded sketch) are read from an explicit
    environment. *)

From Stdlib Require Import String Ascii NArith ZArith Bool Arith Lia List.
Import ListNotations.

Set Implicit Arguments.

(* ================================================================= *)
(** ** JavaScript strings *)

Module Js.

Definition jsstring := list N.

Fixpoint of_string (s : string) : jsstring :=
  match s with
  | EmptyString => []
  | String a r => N_of_ascii a :: of_string r
  end.

Definition LF : N := 10.
Definition BACKTICK : N := 96.
Definition COMMA : N := 44.

(** [WhiteSpace] and [LineTerminator] of ECMAScript: the class [\s] of a
    regular expression and the characters removed by [String.prototype.trim]. *)
Definition is_space (c : N) : bool :=
  ((9 <=? c) && (c <=? 13) || (c =? 32) || (c =? 160) || (c =? 5760)
   || (8192 <=? c) && (c <=? 8202) || (c =? 8232) || (c =? 8233)
   || (c =? 8239) || (c =? 8287) || (c =? 12288) || (c =? 65279))%N.

Fixpoint trimStart (s : jsstring) : jsstring :=
  match s with
  | [] => []
  | c :: r => if is_space c then trimStart r else s
  end.

Fixpoint trimEnd (s : jsstring) : jsstring :=
  match s with
  | [] => []
  | c :: r =>
      match trimEnd r with
      | [] => if is_space c then [] else [c]
      | r' => c :: r'
      end
  end.

(** [s.trim()] *)
Definition trim (s : jsstring) : jsstring := trimEnd (trimStart s).

(** [s.startsWith(p)], also the test "the literal [p] matches at this
    position" of a regular expression. *)
Fixpoint starts_with (p s : jsstring) : bool :=
  match p, s with
  | [], _ => true
  | _ :: _, [] => false
  | a :: p', b :: s' => (a =? b)%N && starts_with p' s'
  end.

(** [s.includes(p)] *)
Fixpoint includes (p s : jsstring) : bool :=
  starts_with p s ||
  match s with
  | [] => false
  | _ :: r => includes p r
  end.

(** [s.split(',')] *)
Fixpoint split_comma (s : jsstring) : list jsstring :=
  match s with
  | [] => [[]]
  | c :: r =>
      if (c =? COMMA)%N then [] :: split_comma r
      else match split_comma r with
           | [] => [[c]]
           | h :: t => (c :: h) :: t
           end
  end.

(** The text a template literal [`${v}`] produces for a value that may be
    [undefined]. *)
Definition undefined_text : jsstring :=
  Eval cbv in of_string "undefined".

Definition template (v : option jsstring) : jsstring :=
  match v with
  | Some s => s
  | None => undefined_text
  end.

End Js.
Import Js.

(* ================================================================= *)
(** ** The code extractor

    [Home.tsx], in [generateCode]:
<<
      const text = res.text || '';
      const match = /```(?:javascript|js)?\s*([\s\S]*?)```/g.exec(text);
      return { code: match ? match[1].trim() : text, fullResponse: text };
>>
    The regular expression is run by a backtracking matcher; each piece of
    the pattern is one function below, and the alternatives of a piece are
    tried in the priority order of ECMAScript. *)

Module Extractor.

Definition fence : jsstring := [BACKTICK; BACKTICK; BACKTICK].
Definition tag_javascript : jsstring := Eval cbv in of_string "javascript".
Definition tag_js : jsstring := Eval cbv in of_string "js".

Definition or_else {A} (x : option A) (y : option A) : option A :=
  match x with
  | Some _ => x
  | None => y
  end.

(** [([\s\S]*?)```]: the lazy group takes as few code units as it can, so
    stopping (the closing fence matches here) is tried before taking one
    more code unit.  The result is the captured group. *)
Fixpoint lazy_capture (s : jsstring) : option jsstring :=
  if starts_with fence s then Some []
  else match s with
       | [] => None
       | c :: r => option_map (cons c) (lazy_capture r)
       end.

(** [\s*] followed by the rest of the pattern: the greedy star takes one more
    white space first, and gives it back when the rest fails. *)
Fixpoint ws_then_capture (s : jsstring) : option jsstring :=
  match s with
  | c :: r =>
      if is_space c then or_else (ws_then_capture r) (lazy_capture s)
      else lazy_capture s
  | [] => lazy_capture s
  end.

(** [(?:javascript|js)?] followed by the rest: the optional group is greedy,
    its alternatives are tried from left to right, and skipping the group
    comes last. *)
Definition tag_then_rest (s : jsstring) : option jsstring :=
  or_else
    (if starts_with tag_javascript s
     then ws_then_capture (skipn (length tag_javascript) s) else None)
    (or_else
       (if starts_with tag_js s
        then ws_then_capture (skipn (length tag_js) s) else None)
       (ws_then_capture s)).

(** The whole pattern, anchored at the start of [s]. *)
Definition match_at (s : jsstring) : option jsstring :=
  if starts_with fence s then tag_then_rest (skipn (length fence) s) else None.

(** [regex.exec(text)] on a fresh regular expression ([lastIndex = 0]): the
    first start position at which the pattern matches.  The result is
    [match[1]]. *)
Fixpoint exec (s : jsstring) : option jsstring :=
  or_else (match_at s)
    match s with
    | [] => None
    | _ :: r => exec r
    end.

(** [match ? match[1].trim() : text] *)
Definition extractCode (text : jsstring) : jsstring :=
  match exec text with
  | Some m1 => trim m1
  | None => text
  end.

(** Some code unit position of [s] starts a [```]. *)
Definition has_fence (s : jsstring) : bool := includes fence s.

(** The first two backticks of a closing fence: a text followed by them
    holds no fence exactly when no fence starts before the closing one. *)
Definition two_ticks : jsstring := [BACKTICK; BACKTICK].

(** The text the specification's example wraps around a program [X]. *)
Definition wrap_js (X : jsstring) : jsstring :=
  fence ++ tag_js ++ [LF] ++ X ++ [LF] ++ fence.

End Extractor.

Import Extractor.

(* ================================================================= *)
(** ** The outside world of [Home.tsx] *)

Module World.

(** A thrown or rejected value. *)
Inductive JsError := Error (message : jsstring).

(** How an awaited promise ends. [Never] is a call that hangs. *)
Inductive Settled (A : Type) :=
| Never
| Rejects (e : JsError)
| Resolves (a : A).
Arguments Never {A}.
Arguments Rejects {A} e.
Arguments Resolves {A} a.

Inductive Model :=
| MODEL_PRO | MODEL_LITE | MODEL_IMAGE_PRO | MODEL_IMAGE_EDIT | MODEL_VEO
| GEMINI_25_FLASH.

Inductive Tool := googleSearch | googleMaps.

Inductive Part :=
| TextPart (text : jsstring)
| InlineDataPart (data : option jsstring) (mimeType : jsstring).

(** [{ temperature, topK, topP }]; the numbers are only passed through. *)
Record Sampling := { temperature : Z * positive; topK : Z; topP : Z * positive }.

Record ContentRequest := {
  model : Model;
  parts : list Part;
  sampling : option Sampling;
  thinkingBudget : option Z;
  tools : option (list Tool);
  imageConfig : option (jsstring * jsstring)
}.

Record VideoRequest := {
  videoModel : Model;
  videoPrompt : jsstring;
  videoAspectRatio : jsstring;
  resolution : jsstring
}.

(** A grounding chunk [c]; the chat keeps [c.web || c.maps]. *)
Record Chunk := { web : option jsstring; maps : option jsstring }.

(** What [res.candidates?.[0]?.content?.parts.find(p => p.inlineData)] does:
    it throws when [content] has no [parts], finds no part, or finds a part
    whose [inlineData.data] may be undefined. *)
Inductive InlineLookup :=
| LookupThrows (e : JsError)
| NoInlinePart
| InlinePart (data : option jsstring).

Record ContentResponse := {
  text : option jsstring;
  groundingChunks : option (list Chunk);
  inlineLookup : InlineLookup
}.

(** A long-running job: [res.done] and
    [res.response?.generatedVideos?.[0]?.video?.uri]; [name] tells the
    handles of one job apart. *)
Record Operation := {
  name : N;
  done : bool;
  videoUri : option jsstring
}.

(** The outbound calls of [Home.tsx], in the order they are made. *)
Inductive Effect :=
| GenerateContent (r : ContentRequest)
| GenerateVideos (r : VideoRequest)
| Sleep (ms : Z)
| GetVideosOperation (operation : Operation)
| Fetch (url : jsstring)
| ReadBlob
| CreateObjectURL.

(** How an invocation of an async function ends: it returns, its promise
    rejects with an error no [catch] saw, or it never gets past an [await]. *)
Inductive Completion :=
| Returned
| Threw (e : JsError)
| Pending.

End World.
Import World.

(* ================================================================= *)
(** ** [Promise.all] *)

Module PromiseAll.

Section Run.
Variable T : Type.

(** [values] is the result array, filled by position as the promises
    fulfil; [remaining] counts the promises not yet fulfilled. *)
Record AllState := { values : list (option T); remaining : nat }.

Definition all_init (n : nat) : AllState :=
  {| values := repeat None n; remaining := n |}.

Fixpoint update (i : nat) (v : option T) (l : list (option T))
  : list (option T) :=
  match l, i with
  | [], _ => []
  | _ :: r, O => v :: r
  | x :: r, S j => x :: update j v r
  end.

Fixpoint collect (l : list (option T)) : list T :=
  match l with
  | [] => []
  | Some v :: r => v :: collect r
  | None :: r => collect r
  end.

(** The promises settle in the order [order] (indices into the array of
    promises); promise [i] settles as [outcome i].  The first rejection
    rejects the whole; the last fulfilment resolves it with the array of
    values.  A promise settles once: a second settlement of an index, or
    an index outside the array, is ignored.  [None]: not settled. *)
Fixpoint all_run (outcome : nat -> JsError + T) (st : AllState)
         (order : list nat) : option (JsError + list T) :=
  match order with
  | [] => None
  | i :: rest =>
      match nth_error (values st) i with
      | Some None =>
          match outcome i with
          | inl e => Some (inl e)
          | inr v =>
              let vs := update i (Some v) (values st) in
              let k := pred (remaining st) in
              if k =? 0 then Some (inr (collect vs))
              else all_run outcome {| values := vs; remaining := k |} rest
          end
      | _ => all_run outcome st rest
      end
  end.

(** [await Promise.all(promises)] for [n] promises. *)
Definition promise_all (n : nat) (outcome : nat -> JsError + T)
           (order : list nat) : Settled (list T) :=
  if n =? 0 then Resolves []
  else match all_run outcome (all_init n) order with
       | None => Never
       | Some (inl e) => Rejects e
       | Some (inr vs) => Resolves vs
       end.

(** The states of a run, described by the slots of the result array. *)
Definition is_none (o : option T) : bool :=
  match o with
  | None => true
  | Some _ => false
  end.

Definition at_slots (n : nat) (slot : nat -> option T) : AllState :=
  {| values := map slot (seq 0 n);
     remaining := length (filter (fun j => is_none (slot j)) (seq 0 n)) |}.

Definition fill (slot : nat -> option T) (i : nat) (v : T) (j : nat)
  : option T :=
  if j =? i then Some v else slot j.
End Run.

End PromiseAll.
Import PromiseAll.

(* ================================================================= *)
(** ** [Home.tsx]: state and operations *)

Module Home.

Inductive PerformanceMode := lite | pro.
Inductive MediaType := image_media | video_media | edit_media.
Inductive Role := user | assistant.

(** An element of [outputs]: [{ id, code, fullResponse }]. *)
Record Candidate := { id : Z; code : jsstring; fullResponse : jsstring }.

Record ChatMessage := {
  role : Role;
  content : jsstring;
  grounding : option (list jsstring)
}.

Inductive Media :=
| ImageMedia (url : jsstring)
| VideoMedia (url : jsstring).

(** The [useState] cells of [Home] that the three operations read or write. *)
Record HomeState := {
  performanceMode : PerformanceMode;
  imageBase64 : jsstring;
  outputs : list Candidate;
  loading : bool;
  concurrentRequests : nat;
  prompt : jsstring;
  errorInfo : option JsError;
  userInput : jsstring;
  thinkingMode : bool;
  samplingConfig : Sampling;
  useSearch : bool;
  useMaps : bool;
  chatMessages : list ChatMessage;
  mediaType : MediaType;
  aspectRatio : jsstring;
  imageSize : jsstring;
  generatedMedia : list Media
}.

Definition ratio_1_1 : jsstring := Eval cbv in of_string "1:1".
Definition size_1K : jsstring := Eval cbv in of_string "1K".

Definition initialState : HomeState :=
  {| performanceMode := pro; imageBase64 := []; outputs := [];
     loading := false; concurrentRequests := 3; prompt := [];
     errorInfo := None; userInput := []; thinkingMode := true;
     samplingConfig :=
       {| temperature := (1%Z, 1%positive); topK := 64%Z;
          topP := (95%Z, 100%positive) |};
     useSearch := false; useMaps := false; chatMessages := [];
     mediaType := image_media;
     aspectRatio := ratio_1_1;
     imageSize := size_1K;
     generatedMedia := [] |}.

Definition setImageBase64 (i : jsstring) (s : HomeState) : HomeState :=
  {| performanceMode := performanceMode s; imageBase64 := i;
     outputs := outputs s; loading := loading s;
     concurrentRequests := concurrentRequests s; prompt := prompt s;
     errorInfo := errorInfo s; userInput := userInput s;
     thinkingMode := thinkingMode s; samplingConfig := samplingConfig s;
     useSearch := useSearch s; useMaps := useMaps s;
     chatMessages := chatMessages s; mediaType := mediaType s;
     aspectRatio := aspectRatio s; imageSize := imageSize s;
     generatedMedia := generatedMedia s |}.

Definition setMediaType (m : MediaType) (s : HomeState) : HomeState :=
  {| performanceMode := performanceMode s; imageBase64 := imageBase64 s;
     outputs := outputs s; loading := loading s;
     concurrentRequests := concurrentRequests s; prompt := prompt s;
     errorInfo := errorInfo s; userInput := userInput s;
     thinkingMode := thinkingMode s; samplingConfig := samplingConfig s;
     useSearch := useSearch s; useMaps := useMaps s;
     chatMessages := chatMessages s; mediaType := m;
     aspectRatio := aspectRatio s; imageSize := imageSize s;
     generatedMedia := generatedMedia s |}.

Definition setLoading (b : bool) (s : HomeState) : HomeState :=
  {| performanceMode := performanceMode s; imageBase64 := imageBase64 s;
     outputs := outputs s; loading := b;
     concurrentRequests := concurrentRequests s; prompt := prompt s;
     errorInfo := errorInfo s; userInput := userInput s;
     thinkingMode := thinkingMode s; samplingConfig := samplingConfig s;
     useSearch := useSearch s; useMaps := useMaps s;
     chatMessages := chatMessages s; mediaType := mediaType s;
     aspectRatio := aspectRatio s; imageSize := imageSize s;
     generatedMedia := generatedMedia s |}.

Definition setOutputs (o : list Candidate) (s : HomeState) : HomeState :=
  {| performanceMode := performanceMode s; imageBase64 := imageBase64 s;
     outputs := o; loading := loading s;
     concurrentRequests := concurrentRequests s; prompt := prompt s;
     errorInfo := errorInfo s; userInput := userInput s;
     thinkingMode := thinkingMode s; samplingConfig := samplingConfig s;
     useSearch := useSearch s; useMaps := useMaps s;
     chatMessages := chatMessages s; mediaType := mediaType s;
     aspectRatio := aspectRatio s; imageSize := imageSize s;
     generatedMedia := generatedMedia s |}.

Definition setErrorInfo (e : option JsError) (s : HomeState) : HomeState :=
  {| performanceMode := performanceMode s; imageBase64 := imageBase64 s;
     outputs := outputs s; loading := loading s;
     concurrentRequests := concurrentRequests s; prompt := prompt s;
     errorInfo := e; userInput := userInput s;
     thinkingMode := thinkingMode s; samplingConfig := samplingConfig s;
     useSearch := useSearch s; useMaps := useMaps s;
     chatMessages := chatMessages s; mediaType := mediaType s;
     aspectRatio := aspectRatio s; imageSize := imageSize s;
     generatedMedia := generatedMedia s |}.

Definition setUserInput (u : jsstring) (s : HomeState) : HomeState :=
  {| performanceMode := performanceMode s; imageBase64 := imageBase64 s;
     outputs := outputs s; loading := loading s;
     concurrentRequests := concurrentRequests s; prompt := prompt s;
     errorInfo := errorInfo s; userInput := u;
     thinkingMode := thinkingMode s; samplingConfig := samplingConfig s;
     useSearch := useSearch s; useMaps := useMaps s;
     chatMessages := chatMessages s; mediaType := mediaType s;
     aspectRatio := aspectRatio s; imageSize := imageSize s;
     generatedMedia := generatedMedia s |}.

Definition setChatMessages (f : list ChatMessage -> list ChatMessage)
           (s : HomeState) : HomeState :=
  {| performanceMode := performanceMode s; imageBase64 := imageBase64 s;
     outputs := outputs s; loading := loading s;
     concurrentRequests := concurrentRequests s; prompt := prompt s;
     errorInfo := errorInfo s; userInput := userInput s;
     thinkingMode := thinkingMode s; samplingConfig := samplingConfig s;
     useSearch := useSearch s; useMaps := useMaps s;
     chatMessages := f (chatMessages s); mediaType := mediaType s;
     aspectRatio := aspectRatio s; imageSize := imageSize s;
     generatedMedia := generatedMedia s |}.

Definition setGeneratedMedia (f : list Media -> list Media)
           (s : HomeState) : HomeState :=
  {| performanceMode := performanceMode s; imageBase64 := imageBase64 s;
     outputs := outputs s; loading := loading s;
     concurrentRequests := concurrentRequests s; prompt := prompt s;
     errorInfo := errorInfo s; userInput := userInput s;
     thinkingMode := thinkingMode s; samplingConfig := samplingConfig s;
     useSearch := useSearch s; useMaps := useMaps s;
     chatMessages := chatMessages s; mediaType := mediaType s;
     aspectRatio := aspectRatio s; imageSize := imageSize s;
     generatedMedia := f (generatedMedia s) |}.

(** The result of one invocation: the React state it leaves, how it ended,
    and the outbound calls it made. *)
Record Run := {
  state : HomeState;
  completion : Completion;
  trace : list Effect
}.

(** A JavaScript string is truthy when it is not empty. *)
Definition truthy (s : jsstring) : bool :=
  match s with
  | [] => false
  | _ :: _ => true
  end.

(** [v || ''] *)
Definition or_empty (v : option jsstring) : jsstring :=
  match v with
  | Some s => s
  | None => []
  end.

Definition getModel (s : HomeState) : Model :=
  match performanceMode s with
  | pro => MODEL_PRO
  | lite => MODEL_LITE
  end.

Definition is_pro (s : HomeState) : bool :=
  match performanceMode s with
  | pro => true
  | lite => false
  end.

Definition image_jpeg : jsstring := Eval cbv in of_string "image/jpeg".

(** [{ inlineData: { data: imageBase64.split(',')[1], mimeType: 'image/jpeg' } }] *)
Definition imagePart (s : HomeState) : Part :=
  InlineDataPart (nth_error (split_comma (imageBase64 s)) 1) image_jpeg.

(* ----------------------------------------------------------------- *)
(** *** [generateCode] *)

(** What one element of [reqs] resolves to: [{ code, fullResponse }]. *)
Record Extracted := { ex_code : jsstring; ex_fullResponse : jsstring }.

(** The part of the request callback after its [await]. *)
Definition extractResponse (res : ContentResponse) : Extracted :=
  let text := or_empty (text res) in
  {| ex_code := extractCode text; ex_fullResponse := text |}.

Definition instructions_label : jsstring :=
  Eval cbv in of_string "Instructions: ".

Definition codeRequest (s : HomeState) : ContentRequest :=
  {| model := getModel s;
     parts :=
       [ TextPart (prompt s ++ [LF; LF]
                   ++ instructions_label
                   ++ userInput s);
         imagePart s ];
     sampling := Some (samplingConfig s);
     thinkingBudget :=
       if is_pro s && thinkingMode s then Some 32768%Z else None;
     tools := None;
     imageConfig := None |}.

(** The world as [generateCode] meets it: whether [new GoogleGenAI] throws,
    how the [i]-th submitted call ends, the order in which the calls settle,
    and what [Date.now()] returns at the [i]-th step of [results.map]. *)
Record CodeEnv := {
  code_client : option JsError;
  call : nat -> JsError + ContentResponse;
  settle_order : list nat;
  now : nat -> Z
}.

(** How the promise of the [i]-th callback settles. *)
Definition callback (env : CodeEnv) (i : nat) : JsError + Extracted :=
  match call env i with
  | inl e => inl e
  | inr res => inr (extractResponse res)
  end.

(** [results.map((r, i) => ({ id: Date.now() + i, ...r }))] *)
Fixpoint assemble (now : nat -> Z) (i : nat) (results : list Extracted)
  : list Candidate :=
  match results with
  | [] => []
  | r :: rest =>
      {| id := now i + Z.of_nat i; code := ex_code r;
         fullResponse := ex_fullResponse r |}
      :: assemble now (S i) rest
  end.

Definition generateCode (s : HomeState) (env : CodeEnv) : Run :=
  if negb (truthy (imageBase64 s)) then
    {| state := s; completion := Returned; trace := [] |}
  else
    let s1 := setLoading true s in
    match code_client env with
    | Some e => {| state := s1; completion := Threw e; trace := [] |}
    | None =>
        let n := concurrentRequests s in
        let issued := repeat (GenerateContent (codeRequest s)) n in
        match promise_all n (callback env) (settle_order env) with
        | Never => {| state := s1; completion := Pending; trace := issued |}
        | Resolves results =>
            {| state := setLoading false
                          (setOutputs (assemble (now env) 0 results) s1);
               completion := Returned; trace := issued |}
        | Rejects e =>
            {| state := setLoading false (setErrorInfo (Some e) s1);
               completion := Returned; trace := issued |}
        end
    end.

(** The callback [onCodeChange] that [Home] hands to each [CodePreview]:
    [setOutputs(o => o.map(x => x.id === id ? {...x, code} : x))]. *)
Definition onCodeChange (i : Z) (c : jsstring) (o : list Candidate)
  : list Candidate :=
  map (fun x => if (id x =? i)%Z
                then {| id := id x; code := c; fullResponse := fullResponse x |}
                else x) o.

(* ----------------------------------------------------------------- *)
(** *** [handleChat] *)

Record ChatEnv := {
  chat_client : option JsError;
  chat_call : Settled ContentResponse
}.

Definition chatTools (s : HomeState) : list Tool :=
  (if useSearch s then [googleSearch] else [])
  ++ (if useMaps s then [googleMaps] else []).

Definition chatRequest (s : HomeState) (msg : jsstring) : ContentRequest :=
  {| model := if useMaps s then GEMINI_25_FLASH else getModel s;
     parts := [TextPart msg];
     sampling := Some (samplingConfig s);
     thinkingBudget :=
       if is_pro s && thinkingMode s && negb (useMaps s)
       then Some 32768%Z else None;
     tools := match chatTools s with
              | [] => None
              | t => Some t
              end;
     imageConfig := None |}.

(** [chunks.map((c) => c.web || c.maps).filter(Boolean)] *)
Fixpoint groundingOf (chunks : list Chunk) : list jsstring :=
  match chunks with
  | [] => []
  | c :: r =>
      match web c, maps c with
      | Some w, _ => w :: groundingOf r
      | None, Some m => m :: groundingOf r
      | None, None => groundingOf r
      end
  end.

Definition handleChat (s : HomeState) (env : ChatEnv) : Run :=
  if negb (truthy (trim (userInput s))) then
    {| state := s; completion := Returned; trace := [] |}
  else
    let msg := trim (userInput s) in
    let s1 :=
      setLoading true
        (setUserInput []
           (setChatMessages
              (fun prev => prev ++ [{| role := user; content := msg;
                                       grounding := None |}]) s)) in
    match chat_client env with
    | Some e => {| state := s1; completion := Threw e; trace := [] |}
    | None =>
        let issued := [GenerateContent (chatRequest s msg)] in
        match chat_call env with
        | Never => {| state := s1; completion := Pending; trace := issued |}
        | Rejects e =>
            {| state := setLoading false (setErrorInfo (Some e) s1);
               completion := Returned; trace := issued |}
        | Resolves res =>
            let g := option_map groundingOf (groundingChunks res) in
            {| state :=
                 setLoading false
                   (setChatMessages
                      (fun prev =>
                         prev ++ [{| role := assistant;
                                     content := or_empty (text res);
                                     grounding := g |}]) s1);
               completion := Returned; trace := issued |}
        end
    end.

(* ----------------------------------------------------------------- *)
(** *** [generateMedia] *)

(** The world as [generateMedia] meets it.  [polls] lists the answers of the
    successive [getVideosOperation] calls; when the list is used up, the
    next call hangs. *)
Record MediaEnv := {
  media_client : option JsError;
  content_call : Settled ContentResponse;
  submit : Settled Operation;
  polls : list (JsError + Operation);
  fetch_result : Settled unit;
  blob_result : Settled unit;
  object_url : jsstring;
  api_key : option jsstring
}.

Definition data_png_prefix : jsstring :=
  Eval cbv in of_string "data:image/png;base64,".
Definition key_param : jsstring := Eval cbv in of_string "&key=".
Definition res_720p : jsstring := Eval cbv in of_string "720p".

Definition imageRequest (s : HomeState) : ContentRequest :=
  {| model := MODEL_IMAGE_PRO;
     parts := TextPart (userInput s)
              :: (if truthy (imageBase64 s) then [imagePart s] else []);
     sampling := None;
     thinkingBudget := None;
     tools := None;
     imageConfig := Some (aspectRatio s, imageSize s) |}.

Definition editRequest (s : HomeState) : ContentRequest :=
  {| model := MODEL_IMAGE_EDIT;
     parts := [imagePart s; TextPart (userInput s)];
     sampling := None;
     thinkingBudget := None;
     tools := None;
     imageConfig := None |}.

Definition videoRequest (s : HomeState) : VideoRequest :=
  {| videoModel := MODEL_VEO;
     videoPrompt := userInput s;
     videoAspectRatio := aspectRatio s;
     resolution := res_720p |}.

(** The [catch] and [finally] blocks shared by the three operations. *)
Definition caught (e : JsError) (s1 : HomeState) : HomeState :=
  setLoading false (setErrorInfo (Some e) s1).

(** The image and edit branches after the [await]. *)
Definition afterContent (res : ContentResponse) (s1 : HomeState) : HomeState :=
  match inlineLookup res with
  | LookupThrows e => caught e s1
  | NoInlinePart => setLoading false s1
  | InlinePart d =>
      setLoading false
        (setGeneratedMedia
           (fun prev => ImageMedia (data_png_prefix ++ template d) :: prev) s1)
  end.

Definition contentBranch (req : ContentRequest) (s1 : HomeState)
           (env : MediaEnv) : Run :=
  let issued := [GenerateContent req] in
  match content_call env with
  | Never => {| state := s1; completion := Pending; trace := issued |}
  | Rejects e =>
      {| state := caught e s1; completion := Returned; trace := issued |}
  | Resolves res =>
      {| state := afterContent res s1; completion := Returned;
         trace := issued |}
  end.

Inductive PollEnd :=
| PollDone (res : Operation)
| PollFailed (e : JsError)
| PollHung.

(** The poll loop:
<<
        let res = op;
        while (!res.done) {
          await new Promise(r => setTimeout(r, 5000));
          res = await ai.operations.getVideosOperation({ operation: res });
        }
>>
    [answers] are the answers still to come; the result is how the loop ends
    and the calls it made. *)
Fixpoint poll_loop (answers : list (JsError + Operation)) (res : Operation)
  : PollEnd * list Effect :=
  if done res then (PollDone res, [])
  else
    match answers with
    | [] => (PollHung, [Sleep 5000; GetVideosOperation res])
    | inl e :: _ => (PollFailed e, [Sleep 5000; GetVideosOperation res])
    | inr r :: rest =>
        let (o, t) := poll_loop rest r in
        (o, Sleep 5000 :: GetVideosOperation res :: t)
    end.

(** [`${uri}&key=${process.env.API_KEY}`] *)
Definition videoUrl (res : Operation) (env : MediaEnv) : jsstring :=
  template (videoUri res) ++ key_param ++ template (api_key env).

(** The video branch after the loop: fetch, read the blob, publish. *)
Definition resolveVideo (res : Operation) (s1 : HomeState) (env : MediaEnv)
  : HomeState * Completion * list Effect :=
  let f := Fetch (videoUrl res env) in
  match fetch_result env with
  | Never => (s1, Pending, [f])
  | Rejects e => (caught e s1, Returned, [f])
  | Resolves _ =>
      match blob_result env with
      | Never => (s1, Pending, [f; ReadBlob])
      | Rejects e => (caught e s1, Returned, [f; ReadBlob])
      | Resolves _ =>
          (setLoading false
             (setGeneratedMedia
                (fun prev => VideoMedia (object_url env) :: prev) s1),
           Returned, [f; ReadBlob; CreateObjectURL])
      end
  end.

Definition videoBranch (s : HomeState) (s1 : HomeState) (env : MediaEnv)
  : Run :=
  let issued := [GenerateVideos (videoRequest s)] in
  match submit env with
  | Never => {| state := s1; completion := Pending; trace := issued |}
  | Rejects e =>
      {| state := caught e s1; completion := Returned; trace := issued |}
  | Resolves op =>
      match poll_loop (polls env) op with
      | (PollHung, t) =>
          {| state := s1; completion := Pending; trace := issued ++ t |}
      | (PollFailed e, t) =>
          {| state := caught e s1; completion := Returned;
             trace := issued ++ t |}
      | (PollDone res, t) =>
          let '(s2, c, t2) := resolveVideo res s1 env in
          {| state := s2; completion := c; trace := issued ++ t ++ t2 |}
      end
  end.

Definition generateMedia (s : HomeState) (env : MediaEnv) : Run :=
  let s1 := setLoading true s in
  match media_client env with
  | Some e => {| state := s1; completion := Threw e; trace := [] |}
  | None =>
      match mediaType s with
      | image_media => contentBranch (imageRequest s) s1 env
      | edit_media => contentBranch (editRequest s) s1 env
      | video_media => videoBranch s s1 env
      end
  end.

(** The status fetches and the resource fetches of a trace. *)
Definition is_poll (e : Effect) : bool :=
  match e with
  | GetVideosOperation _ => true
  | _ => false
  end.

Definition is_fetch (e : Effect) : bool :=
  match e with
  | Fetch _ => true
  | _ => false
  end.

Definition is_generateContent (e : Effect) : bool :=
  match e with
  | GenerateContent _ => true
  | _ => false
  end.

End Home.

(* ================================================================= *)
(** ** [CodePreview.tsx]

    The file holds two versions of the component: the TypeScript one (module
    [Tsx]) and the JavaScript one that follows it (module [Jsx]).  What they
    share comes first. *)

Module Preview.

Inductive Status := idle | loading | success | error.

(** [e.data] of a [message] event: an object with
    [type === 'SKETCH_STATUS'], or anything else. *)
Inductive MessageData :=
| SketchStatus (status : Status) (message : jsstring) (id : Z)
| OtherMessage.

Definition status_of (m : MessageData) : option Status :=
  match m with
  | SketchStatus s _ _ => Some s
  | OtherMessage => None
  end.

(** The [useState] cells of one [CodePreview] that the status channel and the
    export read or write. *)
Record PreviewState := {
  sketchStatus : Status;
  sketchError : jsstring;
  selectedLibs : list jsstring
}.

Definition initialPreview : PreviewState :=
  {| sketchStatus := idle; sketchError := []; selectedLibs := [] |}.

Definition setSketchStatus (s : Status) (p : PreviewState) : PreviewState :=
  {| sketchStatus := s; sketchError := sketchError p;
     selectedLibs := selectedLibs p |}.

Definition setSketchError (m : jsstring) (p : PreviewState) : PreviewState :=
  {| sketchStatus := sketchStatus p; sketchError := m;
     selectedLibs := selectedLibs p |}.

(** One mounted [CodePreview]: its [output] prop and its own state. *)
Record Mounted := { output : Home.Candidate; ui : PreviewState }.

Definition withUi (f : PreviewState -> PreviewState) (c : Mounted) : Mounted :=
  {| output := output c; ui := f (ui c) |}.

(** [Home] renders one [CodePreview] per element of [outputs]; after
    [onCodeChange] each component sees its new [output] and keeps its state. *)
Definition rerender (f : list Home.Candidate -> list Home.Candidate)
           (host : list Mounted) : list Mounted :=
  map (fun p => {| output := fst p; ui := snd p |})
      (combine (f (map output host)) (map ui host)).

(** The sketch is pasted into the script of the sandbox document, inside its
    [try] block, after the statement [post('loading')].  It is a sequence of
    statements and declarations of that block; what it does there is read
    from the record [Sketch]:

    - [compiles]: the script with the pasted text is a valid script (when it
      is not, nothing of it runs, not even the installation of
      [window.onerror]);
    - [binding]: what the name [post] ([postStatus]) denotes inside the [try]
      block.  A [let], [const] or [class] declaration of that name in the
      pasted text leaves it uninitialised when the first statement calls it,
      which throws; a function declaration of that name is hoisted to the top
      of the block, so that the calls of the [try] block (and of the timer set
      in it) run the function of the sketch.  The [catch] block and
      [window.onerror] lie outside the block and always see the [post] of the
      script;
    - [posted_sync]: the messages the sketch posts to the parent by itself
      while the block is evaluated (with any content and any id), those of a
      [post] it declared included;
    - [sync]: how the evaluation of the block ends, up to and including
      [new p5()]: it throws, it runs to its end ([setupDefined]: at that
      point [window.setup] is a function), or it never ends;
    - [before_timer], [after_timer]: what happens later, before and after the
      moment the 100 ms timer is due: an uncaught error that reaches the
      [window.onerror] installed by the script, or a message that the sketch
      posts by itself;
    - [timer_fires]: the timer set by the script runs its callback (the
      sketch has not cleared it, nor replaced [setTimeout]).

    An uncaught error that does not reach the handler of the script (the
    sketch has replaced [window.onerror]) is no event.  The method
    [postMessage] of the parent window is taken as the browser provides
    it. *)
Inductive SyncOutcome :=
| Throws (message : jsstring)
| Completes (setupDefined : bool)
| Diverges.

Inductive PostBinding :=
| ScriptPost
| Uninitialised (message : jsstring)
| Redeclared.

Inductive SketchEvent :=
| Uncaught (message : jsstring)
| Posts (data : MessageData).

Record Sketch := {
  compiles : bool;
  binding : PostBinding;
  posted_sync : list MessageData;
  sync : SyncOutcome;
  before_timer : list SketchEvent;
  timer_fires : bool;
  after_timer : list SketchEvent
}.

Definition DQUOTE : N := 34.

(** [`<script src="${url}"></script>`] *)
Definition script_open : jsstring := Eval cbv in of_string "<script src=".
Definition script_close : jsstring := Eval cbv in of_string "></script>".

Definition scriptTag (url : jsstring) : jsstring :=
  script_open ++ [DQUOTE] ++ url ++ [DQUOTE] ++ script_close.

Fixpoint join (sep : jsstring) (l : list jsstring) : jsstring :=
  match l with
  | [] => []
  | [x] => x
  | x :: r => x ++ sep ++ join sep r
  end.

Fixpoint eqb_js (a b : jsstring) : bool :=
  match a, b with
  | [], [] => true
  | x :: a', y :: b' => (x =? y)%N && eqb_js a' b'
  | _, _ => false
  end.

Record Library := { lib_id : jsstring; lib_name : jsstring; lib_url : jsstring }.

(** [post(s, m)]: the message a sandbox document sends to its parent. *)
Definition post (oid : Z) (s : Status) (m : jsstring) : MessageData :=
  SketchStatus s m oid.

(** [window.onerror] as the script installs it: an uncaught error posts an
    [error] message. *)
Definition onerror (oid : Z) (m : jsstring) : MessageData :=
  post oid error m.

(** What reaches the parent for the events of a sketch. *)
Definition emitted (oid : Z) (e : SketchEvent) : MessageData :=
  match e with
  | Uncaught m => onerror oid m
  | Posts d => d
  end.

Definition events (oid : Z) (l : list SketchEvent) : list MessageData :=
  map (emitted oid) l.

(** The state of the component at position [k] is replaced by [f] of it. *)
Fixpoint updateUi (k : nat) (f : PreviewState -> PreviewState)
         (host : list Mounted) : list Mounted :=
  match host, k with
  | [], _ => []
  | c :: r, O => withUi f c :: r
  | c :: r, S j => c :: updateUi j f r
  end.

(* ----------------------------------------------------------------- *)
(** *** The TypeScript version *)

Module Tsx.

Definition LIBRARIES : list Library :=
  [ {| lib_id := of_string "p5.sound";
       lib_name := of_string "Sound";
       lib_url := of_string
         "https://cdnjs.cloudflare.com/ajax/libs/p5.js/1.4.0/addons/p5.sound.min.js" |};
    {| lib_id := of_string "p5.play";
       lib_name := of_string "Play v3";
       lib_url := of_string
         "https://cdn.jsdelivr.net/npm/p5.play@3.1.0/dist/p5.play.js" |};
    {| lib_id := of_string "p5.ascii";
       lib_name := of_string "ASCII";
       lib_url := of_string
         "https://cdn.jsdelivr.net/npm/p5.ascii@0.1.0/dist/p5.ascii.min.js" |} ].

(** The listener installed by [useEffect]:
<<
      if (e.data?.type === 'SKETCH_STATUS' && e.data.id === output.id) {
        setSketchStatus(e.data.status);
        if (e.data.status === 'error') setSketchError(e.data.message);
      }
>> *)
Definition handleMessage (output_id : Z) (data : MessageData)
           (p : PreviewState) : PreviewState :=
  match data with
  | SketchStatus s m i =>
      if (i =? output_id)%Z then
        let p1 := setSketchStatus s p in
        match s with
        | error => setSketchError m p1
        | _ => p1
        end
      else p
  | OtherMessage => p
  end.

(** A [message] event on [window] reaches the listener of every mounted
    component. *)
Definition dispatch (data : MessageData) (host : list Mounted) : list Mounted :=
  map (fun c => withUi (handleMessage (Home.id (output c)) data) c) host.

(** The editor of the component at position [k] reports the text [v]:
    [onChange={v => onCodeChange(output.id, v || '')}]. *)
Definition editorOnChange (k : nat) (v : option jsstring)
           (host : list Mounted) : list Mounted :=
  match nth_error host k with
  | None => host
  | Some c =>
      rerender (Home.onCodeChange (Home.id (output c)) (Home.or_empty v)) host
  end.

(** [libScripts]: one script tag per selected library, joined by a line
    feed; an id that is not in the catalogue gives the url [undefined]. *)
Definition libScripts (selected : list jsstring) : jsstring :=
  join [LF]
    (map (fun i =>
            scriptTag
              (template
                 (option_map lib_url
                    (find (fun l => eqb_js (lib_id l) i) LIBRARIES))))
         selected).

Definition sketch_js : jsstring := Eval cbv in of_string "sketch.js".
Definition style_css : jsstring := Eval cbv in of_string "style.css".
Definition index_html : jsstring := Eval cbv in of_string "index.html".

Definition styleText : jsstring :=
  Eval cbv in of_string
    "body{margin:0;padding:0;overflow:hidden;background:#000;display:flex;justify-content:center;align-items:center;min-height:100vh;}canvas{display:block;box-shadow:0 0 50px rgba(0,0,0,0.5);border-radius:12px;}".

Definition html_head : jsstring :=
  Eval cbv in of_string "<!DOCTYPE html><html><head>".
Definition p5_url : jsstring :=
  Eval cbv in of_string "https://cdnjs.cloudflare.com/ajax/libs/p5.js/1.4.0/p5.js".
Definition link_open : jsstring := Eval cbv in of_string "<link rel=".
Definition stylesheet : jsstring := Eval cbv in of_string "stylesheet".
Definition href_attr : jsstring := Eval cbv in of_string " href=".
Definition head_body : jsstring := Eval cbv in of_string "></head><body>".
Definition html_tail : jsstring := Eval cbv in of_string "</body></html>".

Definition indexText (selected : list jsstring) : jsstring :=
  html_head ++ scriptTag p5_url ++ libScripts selected
  ++ link_open ++ [DQUOTE] ++ stylesheet ++ [DQUOTE]
  ++ href_attr ++ [DQUOTE] ++ style_css ++ [DQUOTE]
  ++ head_body ++ scriptTag sketch_js ++ html_tail.

(** [handleDownload]: the files put into the archive, in order. *)
Definition handleDownload (c : Mounted) : list (jsstring * jsstring) :=
  [ (sketch_js, Home.code (output c));
    (style_css, styleText);
    (index_html, indexText (selectedLibs (ui c))) ].

(** The file [name] of an archive: the last entry written under it. *)
Definition zipFile (name : jsstring) (zip : list (jsstring * jsstring))
  : option jsstring :=
  option_map snd (find (fun e => eqb_js (fst e) name) (rev zip)).

Definition setup_word : jsstring := Eval cbv in of_string "setup".
Definition wrap_open : jsstring :=
  Eval cbv in of_string "function setup(){createCanvas(500,500);".
Definition wrap_close : jsstring := Eval cbv in of_string "}".

(** The program text placed in the [try] block of [srcDoc]. *)
Definition embedded (code : jsstring) : jsstring :=
  if includes setup_word code then code
  else wrap_open ++ code ++ wrap_close.

(** The messages that the script of [srcDoc] posts to the parent window, in
    order, the ones the sketch posts by itself included:
<<
    const post = (s, m = '') => window.parent.postMessage({ type: 'SKETCH_STATUS', status: s, message: m, id: ${output.id} }, '*');
    window.onerror = (m) => post('error', m);
    try {
      post('loading');
      <embedded program>
      new p5();
      setTimeout(() => post('success'), 100);
    } catch(e) { post('error', e.message); }
>>
    [sem] gives the behaviour of a program text.  The document has the
    origin of the page and runs on its thread: while the evaluation of the
    script goes on, the page handles no message; what is posted is handled
    once the evaluation has ended. *)
Definition srcDoc (sem : jsstring -> Sketch) (o : Home.Candidate)
  : list MessageData :=
  let b := sem (embedded (Home.code o)) in
  let oid := Home.id o in
  let later := events oid (before_timer b ++ after_timer b) in
  if compiles b then
    match binding b with
    | Uninitialised m =>
        (* [post('loading')] throws; the [catch] block reports it *)
        post oid error m :: later
    | ScriptPost =>
        post oid loading []
        :: posted_sync b
        ++ match sync b with
           | Throws m => post oid error m :: later
           | Diverges => []
           | Completes _ =>
               events oid (before_timer b)
               ++ (if timer_fires b then [post oid success []] else [])
               ++ events oid (after_timer b)
           end
    | Redeclared =>
        (* [post('loading')] and the timer's [post('success')] run the
           function of the sketch *)
        posted_sync b
        ++ match sync b with
           | Throws m => post oid error m :: later
           | Diverges => []
           | Completes _ => later
           end
    end
  else [].

End Tsx.

(* ----------------------------------------------------------------- *)
(** *** The JavaScript version *)

Module Jsx.

Definition unknown_error : jsstring :=
  Eval cbv in of_string "Unknown execution error".

(** The listener:
<<
      if (event.data?.type === 'SKETCH_STATUS') {
        const { status, message, id } = event.data;
        if (id === output.id) {
          setSketchStatus(status);
          if (status === 'error') {
            setSketchError(message || 'Unknown execution error');
          }
        }
      }
>> *)
Definition handleMessage (output_id : Z) (data : MessageData)
           (p : PreviewState) : PreviewState :=
  match data with
  | SketchStatus s m i =>
      if (i =? output_id)%Z then
        let p1 := setSketchStatus s p in
        match s with
        | error =>
            setSketchError (if Home.truthy m then m else unknown_error) p1
        | _ => p1
        end
      else p
  | OtherMessage => p
  end.

Definition dispatch (data : MessageData) (host : list Mounted) : list Mounted :=
  map (fun c => withUi (handleMessage (Home.id (output c)) data) c) host.

(** The editor of the component at position [k] reports the text [v]:
<<
                onChange={(value) => {
                  onCodeChange(output.id, value);
                  setSketchStatus('idle'); // Reset status when code is edited
                }}
>>
    An undefined [value] is read back as [''] wherever the component uses the
    code ([output?.code || '']). *)
Definition editorOnChange (k : nat) (v : option jsstring)
           (host : list Mounted) : list Mounted :=
  match nth_error host k with
  | None => host
  | Some c =>
      updateUi k (setSketchStatus idle)
        (rerender (Home.onCodeChange (Home.id (output c)) (Home.or_empty v))
                  host)
  end.

Definition function_setup : jsstring :=
  Eval cbv in of_string "function setup()".

Definition wrap_open : jsstring :=
  Eval cbv in of_string "
      function setup() {
        createCanvas(500, 500);
        ".

Definition wrap_close : jsstring :=
  Eval cbv in of_string "
      }

      function draw() {
        if (typeof window.draw !== 'function') {
          window.draw = function() {};
        }
      }
    ".

(** [wrappedCode] of [renderSketch]. *)
Definition wrappedCode (codeString : jsstring) : jsstring :=
  if includes function_setup codeString then codeString
  else wrap_open ++ codeString ++ wrap_close.

Definition no_setup : jsstring :=
  Eval cbv in of_string "No setup() function found.".

(** The messages that the script of [renderSketch] posts to the parent
    window, in order, the ones the sketch posts by itself included (as in
    the TypeScript version, they are handled once the evaluation of the
    script has ended):
<<
          const postStatus = (status, message = '') => {
            window.parent.postMessage({ type: 'SKETCH_STATUS', status, message, id: ${output.id} }, '*');
          };
          window.onerror = function(message, ...) { postStatus('error', message); ... };
          try {
            postStatus('loading');
            <wrappedCode>
            if (typeof window.setup === 'function') {
              new p5();
              setTimeout(() => postStatus('success'), 100);
            } else {
               postStatus('error', 'No setup() function found.');
            }
          } catch (error) { ... postStatus('error', error.message); ... }
>> *)
Definition renderSketch (sem : jsstring -> Sketch) (o : Home.Candidate)
  : list MessageData :=
  let b := sem (wrappedCode (Home.code o)) in
  let oid := Home.id o in
  let later := events oid (before_timer b ++ after_timer b) in
  if compiles b then
    match binding b with
    | Uninitialised m =>
        (* [postStatus('loading')] throws; the [catch] block reports it *)
        post oid error m :: later
    | ScriptPost =>
        post oid loading []
        :: posted_sync b
        ++ match sync b with
           | Throws m => post oid error m :: later
           | Diverges => []
           | Completes true =>
               events oid (before_timer b)
               ++ (if timer_fires b then [post oid success []] else [])
               ++ events oid (after_timer b)
           | Completes false => post oid error no_setup :: later
           end
    | Redeclared =>
        (* every [postStatus] of the [try] block runs the function of the
           sketch *)
        posted_sync b
        ++ match sync b with
           | Throws m => post oid error m :: later
           | Diverges => []
           | Completes _ => later
           end
    end
  else [].

End Jsx.

(** The statuses a run shows, in order. *)
Fixpoint statuses (l : list MessageData) : list Status :=
  match l with
  | [] => []
  | SketchStatus s _ _ :: r => s :: statuses r
  | OtherMessage :: r => statuses r
  end.

End Preview.

(* ================================================================= *)
(** ** Concrete states and worlds used by the examples below *)

Module Examples.

Import Home Preview.

Definition image_url : jsstring :=
  Eval cbv in of_string "data:image/jpeg;base64,AAAA".

(** [Home] after an image was dropped. *)
Definition s_image : HomeState := setImageBase64 image_url initialState.

Definition quota : JsError := Error (of_string "quota exceeded").

Definition plain (t : jsstring) : ContentResponse :=
  {| text := Some t; groundingChunks := None; inlineLookup := NoInlinePart |}.

Definition sketch_x : jsstring := Eval cbv in of_string "x = 1;".

(** Three calls that all answer; the third settles first. *)
Definition env_ok : CodeEnv :=
  {| code_client := None;
     call := fun _ => inr (plain (wrap_js sketch_x));
     settle_order := [2; 0; 1];
     now := fun _ => 1700000000000%Z |}.

(** Three calls that all answer, while the clock is set back by one
    millisecond after the first candidate is assembled. *)
Definition env_clock_back : CodeEnv :=
  {| code_client := None;
     call := fun _ => inr (plain (wrap_js sketch_x));
     settle_order := [2; 0; 1];
     now := fun i => if i =? 0 then 1700000000001%Z else 1700000000000%Z |}.

(** The second call is rejected, after the third one has answered. *)
Definition env_fail : CodeEnv :=
  {| code_client := None;
     call := fun i => if i =? 1 then inl quota
                      else inr (plain (wrap_js sketch_x));
     settle_order := [2; 1; 0];
     now := fun _ => 1700000000000%Z |}.

Definition chat_ok : ChatEnv :=
  {| chat_client := None; chat_call := Resolves (plain sketch_x) |}.

(** A video job that is done at the third status fetch. *)
Definition op0 : Operation := {| name := 0; done := false; videoUri := None |}.
Definition op1 : Operation := {| name := 1; done := false; videoUri := None |}.
Definition op2 : Operation := {| name := 2; done := false; videoUri := None |}.
Definition op3 : Operation :=
  {| name := 3; done := true;
     videoUri := Some (of_string "https://example.test/v?alt=media") |}.

Definition env_video : MediaEnv :=
  {| media_client := None;
     content_call := Never;
     submit := Resolves op0;
     polls := [inr op1; inr op2; inr op3];
     fetch_result := Resolves tt;
     blob_result := Resolves tt;
     object_url := of_string "blob:1";
     api_key := Some (of_string "k") |}.

Definition s_video : HomeState := setMediaType video_media initialState.

(** An image generation that hangs. *)
Definition env_hung : MediaEnv :=
  {| media_client := None;
     content_call := Never;
     submit := Never;
     polls := [];
     fetch_result := Never;
     blob_result := Never;
     object_url := [];
     api_key := None |}.

(** [Home] while that generation is in flight, the chat box holding one
    space. *)
Definition s_busy : HomeState :=
  state (generateMedia (setUserInput [32%N] initialState) env_hung).


Definition program_with_fence : jsstring :=
  Eval cbv in of_string "const s = '```';".

(** An answer without a fence that ends in a line feed, and the candidate
    [generateCode] makes of it. *)
Definition res_newline : ContentResponse := plain [120%N; LF].

Definition c_newline : Mounted :=
  {| output :=
       {| id := 1700000000000%Z;
          code := ex_code (extractResponse res_newline);
          fullResponse := ex_fullResponse (extractResponse res_newline) |};
     ui := initialPreview |}.

Definition c_plain : Mounted :=
  {| output := {| id := 7%Z; code := sketch_x; fullResponse := sketch_x |};
     ui := initialPreview |}.

(** A component whose sketch ran well. *)
Definition c_success : Mounted :=
  {| output := {| id := 7%Z; code := sketch_x; fullResponse := sketch_x |};
     ui := setSketchStatus success initialPreview |}.

(** A sketch whose [setup] throws when p5 calls it, at the load of the
    document, before the timer fires: the behaviour of the code of
    [o_seven]. *)
Definition sem_setup_throws (_ : jsstring) : Sketch :=
  {| compiles := true; binding := ScriptPost; posted_sync := [];
     sync := Completes true;
     before_timer := [Uncaught (of_string "ReferenceError: foo is not defined")];
     timer_fires := true;
     after_timer := [] |}.

Definition o_seven : Candidate :=
  {| id := 7%Z; code := of_string "function setup(){ foo(); }";
     fullResponse := [] |}.

(** A sketch that runs without any error: the behaviour of the code of
    [o_quiet]. *)
Definition sem_quiet (_ : jsstring) : Sketch :=
  {| compiles := true; binding := ScriptPost; posted_sync := [];
     sync := Completes true; before_timer := []; timer_fires := true;
     after_timer := [] |}.

Definition o_quiet : Candidate :=
  {| id := 7%Z; code := of_string "function setup(){ createCanvas(200, 200); }";
     fullResponse := [] |}.

(** Sketches that break the frame of the script: one declares [post] with
    [let], one declares a function [post], one never ends, and one posts a
    status for the candidate 8 by itself. *)
Definition sem_let_post (_ : jsstring) : Sketch :=
  {| compiles := true;
     binding := Uninitialised
                  (of_string "Cannot access 'post' before initialization");
     posted_sync := []; sync := Completes true; before_timer := [];
     timer_fires := false; after_timer := [] |}.

Definition o_let_post : Candidate :=
  {| id := 7%Z; code := of_string "let post = 1; function setup(){}";
     fullResponse := [] |}.

Definition sem_function_post (_ : jsstring) : Sketch :=
  {| compiles := true; binding := Redeclared; posted_sync := [];
     sync := Completes true; before_timer := []; timer_fires := true;
     after_timer := [] |}.

Definition o_function_post : Candidate :=
  {| id := 7%Z; code := of_string "function post(){} function setup(){}";
     fullResponse := [] |}.

Definition sem_forever (_ : jsstring) : Sketch :=
  {| compiles := true; binding := ScriptPost; posted_sync := [];
     sync := Diverges; before_timer := []; timer_fires := false;
     after_timer := [] |}.

Definition o_forever : Candidate :=
  {| id := 7%Z; code := of_string "function setup(){} for(;;){}";
     fullResponse := [] |}.

Definition sem_forges (_ : jsstring) : Sketch :=
  {| compiles := true; binding := ScriptPost;
     posted_sync := [SketchStatus error (of_string "x") 8];
     sync := Completes true; before_timer := []; timer_fires := true;
     after_timer := [] |}.

Definition o_forges : Candidate :=
  {| id := 7%Z;
     code := of_string
       "function setup(){} window.parent.postMessage({type:'SKETCH_STATUS',status:'error',message:'x',id:8},'*');";
     fullResponse := [] |}.

End Examples.

(* ================================================================= *)
(** ** [CodePreview.tsx]: library selection, explanation, message delivery *)

Module Addons.

Import Preview.

(** [p.includes(id)] on a list of library ids. *)
Definition selected (i : jsstring) (p : list jsstring) : bool :=
  existsb (eqb_js i) p.

(** The click handler of a library button (inline in the TypeScript version,
    [toggleLibrary] in the JavaScript one):
<<
    prev => prev.includes(libId) ? prev.filter(id => id !== libId)
                                 : [...prev, libId]
>> *)
Definition toggleLibrary (libId : jsstring) (prev : list jsstring)
  : list jsstring :=
  if selected libId prev
  then filter (fun i => negb (eqb_js i libId)) prev
  else prev ++ [libId].

(** The messages [msgs] arrive at the window one after the other. *)
Definition deliverTsx (msgs : list MessageData) (host : list Mounted)
  : list Mounted :=
  fold_left (fun h m => Tsx.dispatch m h) msgs host.

Definition deliverJsx (msgs : list MessageData) (host : list Mounted)
  : list Mounted :=
  fold_left (fun h m => Jsx.dispatch m h) msgs host.

(** The library buttons [clicks] are pressed one after the other. *)
Definition clickLibraries (clicks : list Library) (p : list jsstring)
  : list jsstring :=
  fold_left (fun q l => toggleLibrary (lib_id l) q) clicks p.

(** The messages a sketch posts by itself. *)
Definition posts_of (l : list SketchEvent) : list MessageData :=
  flat_map (fun e => match e with
                     | Posts d => [d]
                     | Uncaught _ => []
                     end) l.

Definition sketch_messages (b : Sketch) : list MessageData :=
  posted_sync b ++ posts_of (before_timer b ++ after_timer b).

(** The last status posted by the script when the evaluation of its [try]
    block ran to its end and set the timer, for a sketch that posts nothing
    by itself: the uncaught errors post [error], the timer posts
    [success]. *)
Definition settled (b : Sketch) : Status :=
  match after_timer b with
  | _ :: _ => error
  | [] => if timer_fires b then success
          else match before_timer b with
               | [] => loading
               | _ :: _ => error
               end
  end.

(** The message [m] is a status message with id [i]. *)
Definition carries (i : Z) (m : MessageData) : Prop :=
  exists s t, m = SketchStatus s t i.

End Addons.

Module Explain.

Inductive View := preview | code_view | reasoning | explain.

(** The [useState] cells of the TypeScript [CodePreview] that
    [handleExplain] reads or writes. *)
Record ExplainState := {
  view : View;
  explanation : jsstring;
  isExplaining : bool
}.

Definition setView (v : View) (p : ExplainState) : ExplainState :=
  {| view := v; explanation := explanation p; isExplaining := isExplaining p |}.

Definition setExplanation (t : jsstring) (p : ExplainState) : ExplainState :=
  {| view := view p; explanation := t; isExplaining := isExplaining p |}.

Definition setIsExplaining (b : bool) (p : ExplainState) : ExplainState :=
  {| view := view p; explanation := explanation p; isExplaining := b |}.

Record ExplainEnv := {
  explain_client : option JsError;
  explain_call : Settled ContentResponse
}.

(** The result of one invocation; [asked] lists the [contents] of the
    requests sent to [gemini-3-flash-preview]. *)
Record ExplainRun := {
  after : ExplainState;
  ended : Completion;
  asked : list jsstring
}.

Definition explain_label : jsstring :=
  Eval cbv in of_string "Explain this p5.js code clearly for a developer:".

Definition explain_prompt : jsstring := explain_label ++ [LF; LF].

Definition explanation_failed : jsstring :=
  Eval cbv in of_string "Explanation failed.".

Definition explanation_error : jsstring :=
  Eval cbv in of_string "Error generating explanation.".

(** [handleExplain] of the TypeScript version:
<<
    if (explanation) { setView('explain'); return; }
    setIsExplaining(true);
    setView('explain');
    const ai = new GoogleGenAI({ apiKey: process.env.API_KEY });
    try {
      const res = await ai.models.generateContent({ model: ..., contents: `Explain ...\n\n${output.code}` });
      setExplanation(res.text || 'Explanation failed.');
    } catch {
      setExplanation('Error generating explanation.');
    } finally {
      setIsExplaining(false);
    }
>> *)
Definition handleExplain (code : jsstring) (p : ExplainState)
           (env : ExplainEnv) : ExplainRun :=
  if Home.truthy (explanation p) then
    {| after := setView explain p; ended := Returned; asked := [] |}
  else
    let p1 := setView explain (setIsExplaining true p) in
    match explain_client env with
    | Some e => {| after := p1; ended := Threw e; asked := [] |}
    | None =>
        let sent := [explain_prompt ++ code] in
        match explain_call env with
        | Never => {| after := p1; ended := Pending; asked := sent |}
        | Rejects _ =>
            {| after := setIsExplaining false
                          (setExplanation explanation_error p1);
               ended := Returned; asked := sent |}
        | Resolves res =>
            {| after :=
                 setIsExplaining false
                   (setExplanation
                      (if Home.truthy (Home.or_empty (text res))
                       then Home.or_empty (text res)
                       else explanation_failed) p1);
               ended := Returned; asked := sent |}
        end
    end.

End Explain.

(* ================================================================= *)
(** ** More concrete states and worlds *)

Module MoreExamples.

Import Home Preview Examples.

(** Three calls of which the third never settles. *)
Definition env_one_hung : CodeEnv :=
  {| code_client := None;
     call := fun _ => inr (plain (wrap_js sketch_x));
     settle_order := [1; 0];
     now := fun _ => 1700000000000%Z |}.

(** A video job whose second status fetch fails. *)
Definition env_poll_fails : MediaEnv :=
  {| media_client := None;
     content_call := Never;
     submit := Resolves op0;
     polls := [inr op1; inl quota; inr op3];
     fetch_result := Resolves tt;
     blob_result := Resolves tt;
     object_url := of_string "blob:1";
     api_key := Some (of_string "k") |}.

(** A video job that is never reported done. *)
Definition env_never_done : MediaEnv :=
  {| media_client := None;
     content_call := Never;
     submit := Resolves op0;
     polls := [inr op1; inr op2];
     fetch_result := Resolves tt;
     blob_result := Resolves tt;
     object_url := of_string "blob:1";
     api_key := Some (of_string "k") |}.

(** A video job that is done when it is submitted. *)
Definition env_done_at_once : MediaEnv :=
  {| media_client := None;
     content_call := Never;
     submit := Resolves op3;
     polls := [];
     fetch_result := Resolves tt;
     blob_result := Resolves tt;
     object_url := of_string "blob:1";
     api_key := Some (of_string "k") |}.

Definition s_edit : HomeState := setMediaType edit_media initialState.

Definition s_chat : HomeState := setUserInput sketch_x s_image.

Definition s_blank : HomeState := setUserInput [32%N; LF] s_image.

Definition image_head : jsstring :=
  Eval cbv in of_string "data:image/jpeg;base64".
Definition image_data : jsstring := Eval cbv in of_string "AAAA".

Definition two_outputs : list Candidate :=
  [ {| id := 7%Z; code := sketch_x; fullResponse := wrap_js sketch_x |};
    {| id := 8%Z; code := sketch_x; fullResponse := wrap_js sketch_x |} ].

(** Two mounted candidates; the first ran well. *)
Definition c_eight : Mounted :=
  {| output := {| id := 8%Z; code := sketch_x; fullResponse := sketch_x |};
     ui := initialPreview |}.

Definition two_mounted : list Mounted := [c_success; c_eight].

(** The candidate [o_seven], mounted next to the candidate 8. *)
Definition c_throwing : Mounted :=
  {| output := o_seven; ui := initialPreview |}.

Definition throwing_mounted : list Mounted := [c_throwing; c_eight].

Definition p5_sound : jsstring := Eval cbv in of_string "p5.sound".
Definition p5_play : jsstring := Eval cbv in of_string "p5.play".

Definition fresh_explain : Explain.ExplainState :=
  {| Explain.view := Explain.preview; Explain.explanation := [];
     Explain.isExplaining := false |}.

Definition explain_fails : Explain.ExplainEnv :=
  {| Explain.explain_client := None; Explain.explain_call := Rejects quota |}.

End MoreExamples.

(* ================================================================= *)
(** * Properties *)

Unset Implicit Arguments.

(** *** Facts on strings *)

Lemma is_space_backtick : forall c, is_space c = true -> c <> BACKTICK.
Proof. intros c H ->. discriminate H. Qed.

Lemma starts_with_app : forall p s, starts_with p (p ++ s) = true.
Proof.
  induction p as [|a p IH]; intro s; simpl; [reflexivity|].
  now rewrite N.eqb_refl, IH.
Qed.

Lemma starts_with_split : forall p s,
  starts_with p s = true -> s = p ++ skipn (length p) s.
Proof.
  induction p as [|a p IH]; intros s H; [reflexivity|].
  destruct s as [|b s]; [discriminate|]. simpl in H.
  apply andb_true_iff in H as [Hab Hp]. apply N.eqb_eq in Hab. subst b.
  simpl. f_equal. now apply IH.
Qed.

Lemma trimStart_idem : forall s, trimStart (trimStart s) = trimStart s.
Proof.
  induction s as [|c r IH]; simpl; [reflexivity|].
  destruct (is_space c) eqn:E; [exact IH|]. simpl. now rewrite E.
Qed.

Lemma trimStart_suffix : forall s, exists w, s = w ++ trimStart s.
Proof.
  induction s as [|c r [w IH]]; simpl.
  - now exists [].
  - destruct (is_space c).
    + exists (c :: w). simpl. now f_equal.
    + now exists [].
Qed.

Lemma trimStart_nonspace : forall a c r,
  is_space c = false -> trimStart (a ++ c :: r) = trimStart a ++ c :: r.
Proof.
  induction a as [|x a IH]; intros c r H; simpl.
  - now rewrite H.
  - destruct (is_space x); [now apply IH | reflexivity].
Qed.

Lemma trimEnd_prefix : forall s, exists w, s = trimEnd s ++ w.
Proof.
  induction s as [|c r [w IH]]; simpl.
  - now exists [].
  - destruct (trimEnd r) as [|y t] eqn:E.
    + destruct (is_space c).
      * now exists (c :: r).
      * exists w. simpl. f_equal. exact IH.
    + exists w. simpl. f_equal. exact IH.
Qed.

Lemma trimEnd_app_space : forall s c,
  is_space c = true -> trimEnd (s ++ [c]) = trimEnd s.
Proof.
  induction s as [|x s IH]; intros c H; simpl.
  - now rewrite H.
  - now rewrite (IH c H).
Qed.

Lemma trimEnd_idem : forall s, trimEnd (trimEnd s) = trimEnd s.
Proof.
  induction s as [|c r IH]; simpl; [reflexivity|].
  destruct (trimEnd r) as [|y t] eqn:E.
  - destruct (is_space c) eqn:Ec; simpl; [reflexivity|]. now rewrite Ec.
  - simpl. simpl in IH. rewrite IH. reflexivity.
Qed.

Lemma trimEnd_head : forall c r,
  is_space c = false -> exists t, trimEnd (c :: r) = c :: t.
Proof.
  intros c r H. simpl. destruct (trimEnd r) as [|y t].
  - rewrite H. now exists [].
  - now exists (y :: t).
Qed.

Lemma trimStart_head : forall s,
  trimStart s = [] \/ exists c r, trimStart s = c :: r /\ is_space c = false.
Proof.
  induction s as [|c r IH]; simpl; [now left|].
  destruct (is_space c) eqn:E; [exact IH|]. right. now exists c, r.
Qed.

Lemma trim_idem : forall s, trim (trim s) = trim s.
Proof.
  intro s. unfold trim.
  destruct (trimStart_head s) as [H | (c & r & H & Hc)]; rewrite H.
  - reflexivity.
  - destruct (trimEnd_head c r Hc) as [t Ht]. rewrite Ht.
    simpl trimStart. rewrite Hc. rewrite <- Ht. apply trimEnd_idem.
Qed.

Lemma trim_trimStart : forall s, trim (trimStart s) = trim s.
Proof. intro s. unfold trim. now rewrite trimStart_idem. Qed.

Lemma trimStart_app_space : forall s c,
  is_space c = true ->
  trimStart (s ++ [c]) = match trimStart s with
                         | [] => []
                         | t => t ++ [c]
                         end.
Proof.
  induction s as [|x s IH]; intros c H; simpl.
  - now rewrite H.
  - destruct (is_space x); [now apply IH | reflexivity].
Qed.

Lemma trim_app_space : forall s c, is_space c = true -> trim (s ++ [c]) = trim s.
Proof.
  intros s c H. unfold trim. rewrite (trimStart_app_space s c H).
  destruct (trimStart s) as [|y t]; [reflexivity|].
  change (y :: t ++ [c]) with ((y :: t) ++ [c]). now apply trimEnd_app_space.
Qed.

Lemma trim_cons_space : forall s c, is_space c = true -> trim (c :: s) = trim s.
Proof. intros s c H. unfold trim. simpl. now rewrite H. Qed.

(** *** Facts on fences *)


Lemma starts_with_mono : forall p s t,
  starts_with p s = true -> starts_with p (s ++ t) = true.
Proof.
  induction p as [|a p IH]; intros s t H; [reflexivity|].
  destruct s as [|b s]; [discriminate|]. simpl in *.
  apply andb_true_iff in H as [H1 H2]. rewrite H1. simpl. now apply IH.
Qed.

Lemma has_fence_cons : forall c s,
  has_fence (c :: s) = starts_with fence (c :: s) || has_fence s.
Proof. reflexivity. Qed.

Lemma has_fence_nil : has_fence [] = false.
Proof. reflexivity. Qed.

Lemma has_fence_skip : forall c s,
  c <> BACKTICK -> has_fence (c :: s) = has_fence s.
Proof.
  intros c s H. rewrite has_fence_cons.
  replace (starts_with fence (c :: s)) with false; [reflexivity|].
  unfold fence. cbn [starts_with].
  destruct (N.eqb_spec BACKTICK c) as [E|E]; [now subst c | reflexivity].
Qed.

Lemma has_fence_app_l : forall a b,
  has_fence (a ++ b) = false -> has_fence a = false.
Proof.
  induction a as [|c a IH]; intros b H; [reflexivity|].
  change ((c :: a) ++ b) with (c :: (a ++ b)) in H.
  rewrite has_fence_cons in *. apply orb_false_iff in H as [H1 H2].
  apply orb_false_iff. split; [|now apply IH with b].
  destruct (starts_with fence (c :: a)) eqn:E; [|reflexivity].
  apply starts_with_mono with (t := b) in E. simpl in E, H1. congruence.
Qed.

Lemma has_fence_app_r : forall a b,
  has_fence (a ++ b) = false -> has_fence b = false.
Proof.
  induction a as [|c a IH]; intros b H; [exact H|].
  change ((c :: a) ++ b) with (c :: (a ++ b)) in H.
  rewrite has_fence_cons in H. apply orb_false_iff in H as [_ H].
  now apply IH.
Qed.

Lemma has_fence_trimStart : forall s, has_fence (trimStart s) = has_fence s.
Proof.
  induction s as [|c r IH]; [reflexivity|]. simpl trimStart.
  destruct (is_space c) eqn:E; [|reflexivity].
  rewrite IH. symmetry. apply has_fence_skip. now apply is_space_backtick.
Qed.

(** A fence that starts inside [x] and before two closing backticks also
    starts there when a third backtick and anything else follow. *)
Lemma fence_before_ticks : forall x R,
  x <> [] ->
  starts_with fence (x ++ two_ticks) = false ->
  starts_with fence (x ++ fence ++ R) = false.
Proof.
  intros x R Hx H. unfold fence, two_ticks in *.
  destruct x as [|a [|b [|c x]]]; [congruence| | |];
    cbn [starts_with app] in *;
    repeat match goal with
    | |- context [N.eqb ?u ?v] => destruct (N.eqb u v); cbn [andb] in *
    end; congruence.
Qed.

(** A line feed cannot be part of a fence. *)
Lemma fence_before_lf : forall x R,
  starts_with fence (x ++ LF :: R) = true -> starts_with fence x = true.
Proof.
  intros x R H. unfold fence in *.
  destruct x as [|a [|b [|c x]]]; cbn [starts_with app] in *;
    try (change (BACKTICK =? LF)%N with false in H); cbn [andb] in *;
    repeat match type of H with
    | context [N.eqb ?u ?v] => destruct (N.eqb u v); cbn [andb] in *
    end; congruence.
Qed.

Lemma has_fence_lines : forall X,
  has_fence X = false -> has_fence ([LF] ++ X ++ [LF] ++ two_ticks) = false.
Proof.
  intros X H. change ([LF] ++ X ++ [LF] ++ two_ticks)
    with (LF :: (X ++ LF :: two_ticks)).
  rewrite has_fence_skip by discriminate.
  induction X as [|c X IH]; [reflexivity|].
  rewrite has_fence_cons in H. apply orb_false_iff in H as [H1 H2].
  change ((c :: X) ++ LF :: two_ticks) with (c :: (X ++ LF :: two_ticks)).
  rewrite has_fence_cons. apply orb_false_iff. split; [|now apply IH].
  destruct (starts_with fence (c :: X ++ LF :: two_ticks)) eqn:E; [|reflexivity].
  apply (fence_before_lf (c :: X)) in E. congruence.
Qed.

(** *** The matcher, piece by piece *)

Lemma lazy_capture_none : forall s,
  lazy_capture s = None <-> has_fence s = false.
Proof.
  induction s as [|c r IH].
  - split; reflexivity.
  - rewrite has_fence_cons. cbn [lazy_capture].
    destruct (starts_with fence (c :: r)).
    + split; discriminate.
    + cbn [orb]. destruct (lazy_capture r) eqn:L; simpl.
      * split; [discriminate|]. intro H. apply IH in H. discriminate H.
      * split; [intros _; now apply IH | reflexivity].
Qed.

Lemma lazy_capture_ok : forall b post,
  has_fence (b ++ two_ticks) = false ->
  lazy_capture (b ++ fence ++ post) = Some b.
Proof.
  induction b as [|c b IH]; intros post H.
  - destruct post; reflexivity.
  - change ((c :: b) ++ two_ticks) with (c :: (b ++ two_ticks)) in H.
    rewrite has_fence_cons in H. apply orb_false_iff in H as [H1 H2].
    change ((c :: b) ++ fence ++ post) with (c :: (b ++ fence ++ post)).
    cbn [lazy_capture].
    change (c :: (b ++ fence ++ post)) with ((c :: b) ++ fence ++ post).
    rewrite (fence_before_ticks (c :: b) post); [|discriminate|exact H1].
    rewrite (IH post H2). reflexivity.
Qed.

Lemma lazy_capture_inv : forall s b,
  lazy_capture s = Some b ->
  (exists post, s = b ++ fence ++ post) /\ has_fence (b ++ two_ticks) = false.
Proof.
  induction s as [|c r IH]; intros b H.
  - discriminate.
  - cbn [lazy_capture] in H.
    destruct (starts_with fence (c :: r)) eqn:E.
    + injection H as <-. split; [|reflexivity].
      exists (skipn (length fence) (c :: r)). now apply starts_with_split.
    + destruct (lazy_capture r) as [b'|] eqn:L; [|discriminate].
      injection H as <-. destruct (IH b' eq_refl) as [[post Hr] Hb].
      split.
      * exists post. simpl. now f_equal.
      * change ((c :: b') ++ two_ticks) with (c :: (b' ++ two_ticks)).
        rewrite has_fence_cons, Hb, orb_false_r.
        destruct (starts_with fence (c :: b' ++ two_ticks)) eqn:E2; [|reflexivity].
        apply starts_with_mono with (t := [BACKTICK] ++ post) in E2.
        rewrite Hr in E. simpl in E2. rewrite <- app_assoc in E2.
        simpl in E2. simpl in E. congruence.
Qed.

Lemma ws_then_capture_eq : forall s,
  ws_then_capture s = lazy_capture (trimStart s).
Proof.
  induction s as [|c r IH]; [reflexivity|].
  cbn [ws_then_capture trimStart]. destruct (is_space c) eqn:E; [|reflexivity].
  rewrite IH. destruct (lazy_capture (trimStart r)) eqn:L; [reflexivity|].
  cbn [or_else]. apply lazy_capture_none.
  rewrite has_fence_skip by now apply is_space_backtick.
  rewrite <- has_fence_trimStart. now apply lazy_capture_none.
Qed.

(** A literal that does not contain [c] cannot match across a [c]. *)
Lemma starts_with_cut : forall p x c R,
  (forall a, In a p -> a <> c) ->
  starts_with p (x ++ c :: R) = true -> starts_with p x = true.
Proof.
  induction p as [|a p IH]; intros x c R Hp H; [reflexivity|].
  destruct x as [|b x]; cbn [starts_with app] in *.
  - apply andb_true_iff in H as [H _]. apply N.eqb_eq in H.
    exfalso. apply (Hp a); [now left | exact H].
  - apply andb_true_iff in H as [H1 H2]. rewrite H1. cbn [andb].
    apply (IH x c R); [|exact H2]. intros a' Ha. apply Hp. now right.
Qed.

Lemma tag_javascript_no_tick : forall a, In a tag_javascript -> a <> BACKTICK.
Proof.
  intros a H. unfold tag_javascript in H. simpl in H.
  repeat (destruct H as [<-|H]; [discriminate|]). contradiction.
Qed.

Lemma tag_js_no_tick : forall a, In a tag_js -> a <> BACKTICK.
Proof.
  intros a H. unfold tag_js in H. simpl in H.
  repeat (destruct H as [<-|H]; [discriminate|]). contradiction.
Qed.

Lemma skipn_tag : forall (t r : jsstring), skipn (length t) (t ++ r) = r.
Proof. induction t as [|a t IH]; intro r; [reflexivity | exact (IH r)]. Qed.

Lemma tag_then_rest_javascript : forall rest m,
  lazy_capture (trimStart rest) = Some m ->
  tag_then_rest (tag_javascript ++ rest) = Some m.
Proof.
  intros rest m H. unfold tag_then_rest.
  rewrite starts_with_app, skipn_tag, ws_then_capture_eq, H. reflexivity.
Qed.

Lemma tag_then_rest_js : forall rest m,
  lazy_capture (trimStart rest) = Some m ->
  tag_then_rest (tag_js ++ rest) = Some m.
Proof.
  intros rest m H. unfold tag_then_rest.
  replace (starts_with tag_javascript (tag_js ++ rest)) with false
    by reflexivity.
  rewrite starts_with_app, skipn_tag, ws_then_capture_eq, H. reflexivity.
Qed.

Lemma tag_then_rest_untagged : forall R,
  starts_with tag_javascript R = false ->
  starts_with tag_js R = false ->
  tag_then_rest R = lazy_capture (trimStart R).
Proof.
  intros R H1 H2. unfold tag_then_rest. rewrite H1, H2.
  cbn [or_else]. apply ws_then_capture_eq.
Qed.

Lemma ws_then_capture_inv : forall S m,
  ws_then_capture S = Some m ->
  (exists w post, S = w ++ m ++ fence ++ post)
  /\ has_fence (m ++ two_ticks) = false.
Proof.
  intros S m H. rewrite ws_then_capture_eq in H.
  destruct (lazy_capture_inv _ _ H) as [[post Hp] Hm]. split; [|exact Hm].
  destruct (trimStart_suffix S) as [w Hw]. exists w, post. now rewrite <- Hp.
Qed.

Lemma tag_then_rest_inv : forall R m,
  tag_then_rest R = Some m ->
  (exists w post, R = w ++ m ++ fence ++ post)
  /\ has_fence (m ++ two_ticks) = false.
Proof.
  intros R m H. unfold tag_then_rest in H.
  destruct (starts_with tag_javascript R) eqn:E1.
  - destruct (ws_then_capture (skipn (length tag_javascript) R)) eqn:W1.
    + cbn [or_else] in H. injection H as ->.
      destruct (ws_then_capture_inv _ _ W1) as [(w & post & Hw) Hm].
      split; [|exact Hm]. exists (tag_javascript ++ w), post.
      rewrite (starts_with_split _ _ E1) at 1. rewrite Hw.
      now rewrite <- app_assoc.
    + cbn [or_else] in H. destruct (starts_with tag_js R) eqn:E2.
      * apply starts_with_split in E1. rewrite E1 in E2. discriminate E2.
      * cbn [or_else] in H. now apply ws_then_capture_inv.
  - cbn [or_else] in H. destruct (starts_with tag_js R) eqn:E2.
    + destruct (ws_then_capture (skipn (length tag_js) R)) eqn:W2.
      * cbn [or_else] in H. injection H as ->.
        destruct (ws_then_capture_inv _ _ W2) as [(w & post & Hw) Hm].
        split; [|exact Hm]. exists (tag_js ++ w), post.
        rewrite (starts_with_split _ _ E2) at 1. rewrite Hw.
        now rewrite <- app_assoc.
      * cbn [or_else] in H. now apply ws_then_capture_inv.
    + cbn [or_else] in H. now apply ws_then_capture_inv.
Qed.

Lemma exec_unfold : forall s,
  exec s = or_else (match_at s)
             match s with
             | [] => None
             | _ :: r => exec r
             end.
Proof. destruct s; reflexivity. Qed.

Lemma match_at_fence : forall R, match_at (fence ++ R) = tag_then_rest R.
Proof. reflexivity. Qed.

Lemma exec_first_fence : forall pre R m,
  has_fence (pre ++ two_ticks) = false ->
  tag_then_rest R = Some m ->
  exec (pre ++ fence ++ R) = Some m.
Proof.
  induction pre as [|c pre IH]; intros R m H HR.
  - cbn [app]. rewrite exec_unfold, match_at_fence, HR. reflexivity.
  - change ((c :: pre) ++ two_ticks) with (c :: (pre ++ two_ticks)) in H.
    rewrite has_fence_cons in H. apply orb_false_iff in H as [H1 H2].
    rewrite exec_unfold. unfold match_at.
    rewrite (fence_before_ticks (c :: pre) R); [|discriminate|exact H1].
    cbn [or_else app]. now apply IH.
Qed.

Lemma exec_inv : forall s m,
  exec s = Some m ->
  exists pre R, s = pre ++ fence ++ R /\ tag_then_rest R = Some m.
Proof.
  induction s as [|c r IH]; intros m H.
  - discriminate H.
  - rewrite exec_unfold in H. unfold match_at in H.
    destruct (starts_with fence (c :: r)) eqn:E.
    + destruct (tag_then_rest (skipn (length fence) (c :: r))) eqn:T.
      * cbn [or_else] in H. injection H as ->.
        exists [], (skipn (length fence) (c :: r)). split; [|exact T].
        now apply starts_with_split.
      * cbn [or_else] in H. destruct (IH m H) as (pre & R & -> & HR).
        now exists (c :: pre), R.
    + cbn [or_else] in H. destruct (IH m H) as (pre & R & -> & HR).
      now exists (c :: pre), R.
Qed.

(** What [exec] captures holds no fence, also after trimming. *)
Lemma exec_capture_no_fence : forall s m,
  exec s = Some m -> has_fence (trim m) = false.
Proof.
  intros s m H. destruct (exec_inv _ _ H) as (pre & R & _ & HR).
  destruct (tag_then_rest_inv _ _ HR) as [_ Hm].
  apply has_fence_app_l in Hm. unfold trim.
  destruct (trimStart_suffix m) as [w Hw]. rewrite Hw in Hm.
  apply has_fence_app_r in Hm.
  destruct (trimEnd_prefix (trimStart m)) as [w' Hw']. rewrite Hw' in Hm.
  now apply has_fence_app_l in Hm.
Qed.


(** The fenced case: the first [```] of the text opens the block, the tag
    [javascript] or [js] and the white space after it are skipped, and the
    block ends at the next [```]. *)
Lemma extractCode_fenced : forall pre tag interior post,
  has_fence (pre ++ two_ticks) = false ->
  (tag = tag_javascript \/ tag = tag_js \/
   (tag = [] /\ starts_with tag_javascript interior = false
             /\ starts_with tag_js interior = false)) ->
  has_fence (interior ++ two_ticks) = false ->
  extractCode (pre ++ fence ++ tag ++ interior ++ fence ++ post) = trim interior.
Proof.
  intros pre tag interior post Hpre Htag Hin.
  assert (L : lazy_capture (trimStart (interior ++ fence ++ post))
              = Some (trimStart interior)).
  { change (interior ++ fence ++ post)
      with (interior ++ BACKTICK :: (two_ticks ++ post)).
    rewrite trimStart_nonspace by reflexivity.
    apply (lazy_capture_ok (trimStart interior) post).
    destruct (trimStart_suffix interior) as [w Hw].
    rewrite Hw, <- app_assoc in Hin. now apply has_fence_app_r in Hin. }
  unfold extractCode. rewrite (exec_first_fence pre _ (trimStart interior) Hpre).
  - apply trim_trimStart.
  - destruct Htag as [-> | [-> | (-> & H1 & H2)]].
    + now apply tag_then_rest_javascript.
    + now apply tag_then_rest_js.
    + cbn [app]. rewrite tag_then_rest_untagged; [exact L| |].
      * destruct (starts_with tag_javascript (interior ++ fence ++ post)) eqn:E;
          [|reflexivity].
        apply starts_with_cut in E; [congruence | apply tag_javascript_no_tick].
      * destruct (starts_with tag_js (interior ++ fence ++ post)) eqn:E;
          [|reflexivity].
        apply starts_with_cut in E; [congruence | apply tag_js_no_tick].
Qed.


Lemma extractCode_wrap_js : forall X,
  has_fence X = false -> extractCode (wrap_js X) = trim X.
Proof.
  intros X H. unfold wrap_js.
  change (fence ++ tag_js ++ [LF] ++ X ++ [LF] ++ fence)
    with ([] ++ fence ++ tag_js ++ [LF] ++ X ++ [LF] ++ fence).
  replace ([LF] ++ X ++ [LF] ++ fence)
    with (([LF] ++ X ++ [LF]) ++ fence ++ [])
    by (rewrite app_nil_r, <- !app_assoc; reflexivity).
  rewrite extractCode_fenced.
  - cbn [app]. rewrite trim_cons_space by reflexivity.
    now apply trim_app_space.
  - reflexivity.
  - now right; left.
  - rewrite <- !app_assoc. now apply has_fence_lines.
Qed.

(** *** [Promise.all] *)

Section AllFacts.
Variable T : Type.

Lemma all_init_slots : forall n, all_init T n = at_slots n (fun _ => None).
Proof.
  intro n. unfold all_init, at_slots. f_equal.
  - generalize 0. induction n as [|n IH]; intro a; [reflexivity|].
    simpl. f_equal. apply IH.
  - generalize 0. induction n as [|n IH]; intro a; [reflexivity|].
    simpl. f_equal. apply IH.
Qed.

Lemma nth_error_slots : forall (slot : nat -> option T) n a i,
  nth_error (map slot (seq a n)) i
  = if i <? n then Some (slot (a + i)) else None.
Proof.
  intros slot. induction n as [|n IH]; intros a i.
  - destruct i; reflexivity.
  - destruct i as [|i]; simpl.
    + now rewrite Nat.add_0_r.
    + rewrite IH. change (S i <? S n) with (i <? n).
      destruct (i <? n); [|reflexivity]. f_equal. f_equal. lia.
Qed.

Lemma update_slots : forall (slot : nat -> option T) x n a i,
  update i x (map slot (seq a n))
  = map (fun j => if j =? a + i then x else slot j) (seq a n).
Proof.
  intros slot x. induction n as [|n IH]; intros a i.
  - destruct i; reflexivity.
  - destruct i as [|i]; simpl.
    + rewrite Nat.add_0_r, Nat.eqb_refl. f_equal.
      apply map_ext_in. intros j Hj. apply in_seq in Hj.
      destruct (Nat.eqb_spec j a); [lia | reflexivity].
    + destruct (Nat.eqb_spec a (a + S i)); [lia|]. f_equal.
      rewrite IH. apply map_ext. intro j.
      now replace (S a + i) with (a + S i) by lia.
Qed.

Lemma filter_ext_in_length : forall (f g : nat -> bool) l,
  (forall j, In j l -> f j = g j) ->
  length (filter f l) = length (filter g l).
Proof. intros f g l H. now rewrite (filter_ext_in f g l H). Qed.

Lemma count_fill : forall (slot : nat -> option T) i v l,
  NoDup l -> In i l -> slot i = None ->
  length (filter (fun j => is_none (fill slot i v j)) l)
  = pred (length (filter (fun j => is_none (slot j)) l)).
Proof.
  intros slot i v. induction l as [|a l IH]; intros Hnd Hin Hi.
  - contradiction.
  - inversion Hnd as [|? ? Hna Hnd']; subst. cbn [filter].
    destruct (Nat.eqb_spec a i) as [->|Hne].
    + replace (fill slot i v i) with (Some v)
        by (unfold fill; now rewrite Nat.eqb_refl).
      rewrite Hi. simpl. apply filter_ext_in_length.
      intros j Hj. unfold fill. destruct (Nat.eqb_spec j i); [|reflexivity].
      subst j. contradiction.
    + destruct Hin as [->|Hin]; [congruence|].
      replace (fill slot i v a) with (slot a)
        by (unfold fill; destruct (Nat.eqb_spec a i); congruence).
      pose proof (IH Hnd' Hin Hi) as IH'.
      assert (0 < length (filter (fun j => is_none (slot j)) l)).
      { assert (In i (filter (fun j => is_none (slot j)) l))
          by (apply filter_In; split; [exact Hin | now rewrite Hi]).
        destruct (filter (fun j => is_none (slot j)) l);
          [contradiction | simpl; lia]. }
      destruct (is_none (slot a)); simpl; lia.
Qed.


Lemma count_pos : forall (slot : nat -> option T) i n,
  i < n -> slot i = None ->
  0 < length (filter (fun j => is_none (slot j)) (seq 0 n)).
Proof.
  intros slot i n Hi Hs.
  assert (In i (filter (fun j => is_none (slot j)) (seq 0 n))).
  { apply filter_In. split; [apply in_seq; lia | now rewrite Hs]. }
  destruct (filter (fun j => is_none (slot j)) (seq 0 n));
    [contradiction | simpl; lia].
Qed.

Lemma count_zero : forall (slot : nat -> option T) l,
  length (filter (fun j => is_none (slot j)) l) = 0 ->
  forall j, In j l -> slot j <> None.
Proof.
  intros slot l H j Hj Hs.
  assert (In j (filter (fun j => is_none (slot j)) l))
    by (apply filter_In; split; [exact Hj | now rewrite Hs]).
  destruct (filter (fun j => is_none (slot j)) l); [contradiction|].
  discriminate H.
Qed.

Lemma collect_slots : forall (slot : nat -> option T) (v : nat -> T) l,
  (forall j, In j l -> slot j = Some (v j)) ->
  collect (map slot l) = map v l.
Proof.
  intros slot v. induction l as [|a l IH]; intro H; [reflexivity|].
  simpl. rewrite (H a) by now left. f_equal. apply IH.
  intros j Hj. apply H. now right.
Qed.

(** One step of the run from a state given by its slots. *)
Lemma all_run_step :
  forall (outcome : nat -> JsError + T) n (slot : nat -> option T) i rest,
  all_run outcome (at_slots n slot) (i :: rest)
  = if (i <? n) && is_none (slot i) then
      match outcome i with
      | inl e => Some (inl e)
      | inr v =>
          if remaining (at_slots n (fill slot i v)) =? 0
          then Some (inr (collect (values (at_slots n (fill slot i v)))))
          else all_run outcome (at_slots n (fill slot i v)) rest
      end
    else all_run outcome (at_slots n slot) rest.
Proof.
  intros outcome n slot i rest. cbn [all_run].
  cbn [values at_slots]. rewrite nth_error_slots. cbn [Nat.add].
  destruct (Nat.ltb_spec i n) as [Hi|Hi]; [|reflexivity].
  destruct (slot i) eqn:Hs; [reflexivity|]. cbn [andb is_none].
  destruct (outcome i) as [e|v]; [reflexivity|].
  assert (E : {| values := update i (Some v) (map slot (seq 0 n));
                 remaining := pred (remaining (at_slots n slot)) |}
              = at_slots n (fill slot i v)).
  { unfold at_slots. f_equal.
    - rewrite update_slots. reflexivity.
    - cbn [remaining]. symmetry.
      apply count_fill; [apply seq_NoDup | apply in_seq; lia | exact Hs]. }
  injection E as E1 E2.
  cbn [values remaining at_slots] in *. rewrite E1, E2. reflexivity.
Qed.

(** When every call fulfils and every call settles, the result is the
    array of the values in submission order. *)
Lemma all_run_resolves :
  forall (outcome : nat -> JsError + T) (v : nat -> T) n order
         (slot : nat -> option T),
  (forall i, i < n -> outcome i = inr (v i)) ->
  (forall i x, slot i = Some x -> x = v i) ->
  (forall i, i < n -> slot i = None -> In i order) ->
  0 < remaining (at_slots n slot) ->
  all_run outcome (at_slots n slot) order = Some (inr (map v (seq 0 n))).
Proof.
  intros outcome v n. induction order as [|i rest IH];
    intros slot Hout Hslot Hin Hpos.
  - exfalso. cbn [remaining at_slots] in Hpos.
    destruct (filter (fun j => is_none (slot j)) (seq 0 n)) as [|j l] eqn:F;
      [simpl in Hpos; lia|].
    assert (Hj : In j (filter (fun j => is_none (slot j)) (seq 0 n)))
      by (rewrite F; now left).
    apply filter_In in Hj as [Hj1 Hj2]. apply in_seq in Hj1.
    destruct (slot j) eqn:Sj; [discriminate|]. apply (Hin j); [lia|exact Sj].
  - rewrite all_run_step.
    destruct (Nat.ltb_spec i n) as [Hi|Hi]; cbn [andb].
    + destruct (slot i) eqn:Si; cbn [is_none].
      * apply IH; try assumption. intros j Hj Sj.
        destruct (Hin j Hj Sj) as [<-|H]; [congruence | exact H].
      * rewrite (Hout i Hi).
        assert (Hfill : forall j x, fill slot i (v i) j = Some x -> x = v j).
        { intros j x. unfold fill. destruct (Nat.eqb_spec j i) as [->|_].
          - now intros [= <-].
          - apply Hslot. }
        destruct (remaining (at_slots n (fill slot i (v i))) =? 0) eqn:R.
        -- apply Nat.eqb_eq in R. f_equal. f_equal.
           cbn [values at_slots]. apply collect_slots. intros j Hj.
           destruct (fill slot i (v i) j) as [x|] eqn:Fj.
           ++ now rewrite (Hfill j x Fj).
           ++ exfalso. exact (count_zero _ _ R j Hj Fj).
        -- apply Nat.eqb_neq in R. apply IH; try assumption; [|lia].
           intros j Hj Fj. unfold fill in Fj.
           destruct (Nat.eqb_spec j i) as [->|Hne]; [discriminate|].
           destruct (Hin j Hj Fj) as [<-|H]; [congruence | exact H].
    + apply IH; try assumption. intros j Hj Sj.
      destruct (Hin j Hj Sj) as [<-|H]; [lia | exact H].
Qed.

(** When a call that settles rejects, the whole rejects, with the error of
    a call that rejected. *)
Lemma all_run_rejects :
  forall (outcome : nat -> JsError + T) n order (slot : nat -> option T)
         i e,
  i < n -> slot i = None -> In i order -> outcome i = inl e ->
  exists j e', In j order /\ j < n /\ outcome j = inl e' /\
    all_run outcome (at_slots n slot) order = Some (inl e').
Proof.
  intros outcome n. induction order as [|k rest IH];
    intros slot i e Hi Hs Hin Hout.
  - contradiction.
  - rewrite all_run_step.
    destruct (Nat.ltb_spec k n) as [Hk|Hk]; cbn [andb].
    + destruct (slot k) eqn:Sk; cbn [is_none].
      * destruct Hin as [->|Hin]; [congruence|].
        destruct (IH slot i e Hi Hs Hin Hout) as (j & e' & H1 & H2 & H3 & H4).
        exists j, e'. repeat split; try assumption. now right.
      * destruct (outcome k) as [e'|v] eqn:Ok.
        -- exists k, e'. repeat split; try assumption. now left.
        -- destruct Hin as [->|Hin]; [congruence|].
           assert (Hne : i <> k) by congruence.
           assert (Hf : fill slot k v i = None).
           { unfold fill. destruct (Nat.eqb_spec i k); [contradiction|].
             exact Hs. }
           pose proof (count_pos (fill slot k v) i n Hi Hf) as Hpos.
           destruct (remaining (at_slots n (fill slot k v)) =? 0) eqn:R.
           ++ apply Nat.eqb_eq in R. cbn [remaining at_slots] in R. lia.
           ++ destruct (IH (fill slot k v) i e Hi Hf Hin Hout)
                as (j & e' & H1 & H2 & H3 & H4).
              exists j, e'. repeat split; try assumption. now right.
    + destruct Hin as [->|Hin]; [lia|].
      destruct (IH slot i e Hi Hs Hin Hout) as (j & e' & H1 & H2 & H3 & H4).
      exists j, e'. repeat split; try assumption. now right.
Qed.

Lemma promise_all_resolves :
  forall (outcome : nat -> JsError + T) (v : nat -> T) n order,
  (forall i, i < n -> outcome i = inr (v i)) ->
  (forall i, i < n -> In i order) ->
  promise_all n outcome order = Resolves (map v (seq 0 n)).
Proof.
  intros outcome v n order Hout Hin. unfold promise_all.
  destruct (Nat.eqb_spec n 0) as [->|Hn]; [reflexivity|].
  rewrite all_init_slots.
  rewrite (all_run_resolves outcome v n order (fun _ => None));
    try assumption; try discriminate.
  - reflexivity.
  - intros i Hi _. now apply Hin.
  - apply (count_pos (fun _ => None) 0 n); [lia | reflexivity].
Qed.

Lemma promise_all_rejects :
  forall (outcome : nat -> JsError + T) n order i e,
  i < n -> In i order -> outcome i = inl e ->
  exists j e', j < n /\ outcome j = inl e' /\
    promise_all n outcome order = Rejects e'.
Proof.
  intros outcome n order i e Hi Hin Hout. unfold promise_all.
  destruct (Nat.eqb_spec n 0) as [->|Hn]; [lia|].
  rewrite all_init_slots.
  destruct (all_run_rejects outcome n order (fun _ => None) i e Hi eq_refl
              Hin Hout) as (j & e' & _ & H2 & H3 & H4).
  exists j, e'. rewrite H4. now repeat split.
Qed.
End AllFacts.

(** *** [generateCode] *)

Section GenerateCodeFacts.
Import Home.

Lemma assemble_seq : forall now (f : nat -> Extracted) n a,
  assemble now a (map f (seq a n))
  = map (fun i => {| id := now i + Z.of_nat i; code := ex_code (f i);
                     fullResponse := ex_fullResponse (f i) |}) (seq a n).
Proof.
  intros now f. induction n as [|n IH]; intro a; [reflexivity|].
  simpl. f_equal. apply IH.
Qed.

Lemma truthy_true : forall s, truthy s = true -> negb (truthy s) = false.
Proof. intros s ->. reflexivity. Qed.

(** A run that got past the guard and the constructor. *)
Lemma generateCode_body : forall s env,
  truthy (imageBase64 s) = true -> code_client env = None ->
  generateCode s env
  = let s1 := setLoading true s in
    let n := concurrentRequests s in
    let issued := repeat (GenerateContent (codeRequest s)) n in
    match promise_all n (callback env) (settle_order env) with
    | Never => {| state := s1; completion := Pending; trace := issued |}
    | Resolves results =>
        {| state := setLoading false
                      (setOutputs (assemble (now env) 0 results) s1);
           completion := Returned; trace := issued |}
    | Rejects e =>
        {| state := setLoading false (setErrorInfo (Some e) s1);
           completion := Returned; trace := issued |}
    end.
Proof.
  intros s env Hg Hc. unfold generateCode.
  now rewrite (truthy_true _ Hg), Hc.
Qed.

Lemma ids_NoDup : forall (now : nat -> Z) n,
  (forall i j, i <= j -> (now i <= now j)%Z) ->
  NoDup (map (fun i => (now i + Z.of_nat i)%Z) (seq 0 n)).
Proof.
  intros now n Hmono. apply NoDup_map_NoDup_ForallPairs; [|apply seq_NoDup].
  intros i j _ _ Heq.
  destruct (Nat.lt_trichotomy i j) as [H|[H|H]]; [|exact H|].
  - pose proof (Hmono i j ltac:(lia)). lia.
  - pose proof (Hmono j i ltac:(lia)). lia.
Qed.
End GenerateCodeFacts.

(** C5, as amended: a batch of N >= 1 generation calls that all answer
    yields exactly N candidates, the i-th built from the answer to the i-th submitted request
    whatever the order in which the calls settle, each with the id
    [Date.now() + i] assigned when the batch is assembled; the ids are
    pairwise distinct as long as the clock does not run backwards. *)
Theorem generateCode_batch_in_submission_order :
  forall (s : Home.HomeState) (env : Home.CodeEnv)
         (responses : nat -> ContentResponse),
    1 <= Home.concurrentRequests s ->
    Home.truthy (Home.imageBase64 s) = true ->
    Home.code_client env = None ->
    (forall i, i < Home.concurrentRequests s ->
               Home.call env i = inr (responses i)) ->
    (forall i, i < Home.concurrentRequests s -> In i (Home.settle_order env)) ->
    let r := Home.generateCode s env in
    Home.completion r = Returned
    /\ Home.outputs (Home.state r)
       = map (fun i =>
                {| Home.id := (Home.now env i + Z.of_nat i)%Z;
                   Home.code := extractCode (Home.or_empty (text (responses i)));
                   Home.fullResponse := Home.or_empty (text (responses i)) |})
             (seq 0 (Home.concurrentRequests s))
    /\ length (Home.outputs (Home.state r)) = Home.concurrentRequests s
    /\ ((forall i j, i <= j -> (Home.now env i <= Home.now env j)%Z) ->
        NoDup (map Home.id (Home.outputs (Home.state r)))).
Proof.
  intros s env responses Hn Hg Hc Hcall Hsettle r. subst r.
  rewrite (generateCode_body s env Hg Hc). cbv zeta.
  rewrite (promise_all_resolves _ (Home.callback env)
             (fun i => Home.extractResponse (responses i))).
  - cbn [Home.state Home.completion Home.outputs Home.setLoading Home.setOutputs].
    rewrite assemble_seq. cbn [Home.ex_code Home.ex_fullResponse Home.extractResponse].
    repeat split.
    + now rewrite length_map, length_seq.
    + intro Hmono. rewrite map_map. cbn [Home.id].
      now apply ids_NoDup.
  - intros i Hi. unfold Home.callback. now rewrite (Hcall i Hi).
  - exact Hsettle.
Qed.

(** C1: when one of the N concurrent calls is rejected, [generateCode]
    reports the failure of the batch ([errorInfo] holds the error of a call
    that was rejected), leaves [outputs] as it was (no candidate of the batch
    is surfaced), and clears [loading]. *)
Theorem generateCode_all_or_nothing :
  forall (s : Home.HomeState) (env : Home.CodeEnv) (i : nat) (e : JsError),
    Home.truthy (Home.imageBase64 s) = true ->
    Home.code_client env = None ->
    i < Home.concurrentRequests s ->
    Home.call env i = inl e ->
    In i (Home.settle_order env) ->
    let r := Home.generateCode s env in
    Home.completion r = Returned
    /\ Home.outputs (Home.state r) = Home.outputs s
    /\ Home.loading (Home.state r) = false
    /\ exists j e', j < Home.concurrentRequests s
                    /\ Home.call env j = inl e'
                    /\ Home.errorInfo (Home.state r) = Some e'.
Proof.
  intros s env i e Hg Hc Hi Hcall Hin r. subst r.
  rewrite (generateCode_body s env Hg Hc). cbv zeta.
  destruct (promise_all_rejects _ (Home.callback env)
              (Home.concurrentRequests s) (Home.settle_order env) i e Hi Hin)
    as (j & e' & Hj & Hout & ->).
  - unfold Home.callback. now rewrite Hcall.
  - cbn. repeat split. exists j, e'. repeat split; [exact Hj|].
    unfold Home.callback in Hout.
    destruct (Home.call env j) as [e2|res]; [congruence | discriminate].
Qed.

(** C9: invoked with an empty [imageBase64], [generateCode] returns at once:
    the whole state of [Home] is unchanged ([outputs], [loading] and
    [errorInfo] included) and no request is issued. *)
Theorem generateCode_without_image :
  forall (s : Home.HomeState) (env : Home.CodeEnv),
    Home.imageBase64 s = [] ->
    Home.generateCode s env
    = {| Home.state := s; Home.completion := Returned; Home.trace := [] |}.
Proof. intros s env H. unfold Home.generateCode. now rewrite H. Qed.

(** An invocation whose calls all settle returns: the batch is either complete
    or rejected. *)
Lemma calls_all_or_one_fails :
  forall (outcome : nat -> JsError + Home.Extracted) n,
    (forall i, i < n -> exists x, outcome i = inr x)
    \/ (exists i e, i < n /\ outcome i = inl e).
Proof.
  intros outcome. induction n as [|n [IH|(i & e & Hi & He)]].
  - left. intros i Hi. lia.
  - destruct (outcome n) as [e|x] eqn:E.
    + right. exists n, e. split; [lia | exact E].
    + left. intros i Hi. destruct (Nat.eq_dec i n) as [->|Hne].
      * now exists x.
      * apply IH. lia.
  - right. exists i, e. split; [lia | exact He].
Qed.

Lemma generateCode_returns :
  forall (s : Home.HomeState) (env : Home.CodeEnv),
    Home.truthy (Home.imageBase64 s) = true ->
    Home.code_client env = None ->
    (forall i, i < Home.concurrentRequests s -> In i (Home.settle_order env)) ->
    Home.completion (Home.generateCode s env) = Returned.
Proof.
  intros s env Hg Hc Hsettle.
  rewrite (generateCode_body s env Hg Hc). cbv zeta.
  destruct (calls_all_or_one_fails (Home.callback env)
              (Home.concurrentRequests s)) as [Hall|(i & e & Hi & He)].
  - rewrite (promise_all_resolves _ (Home.callback env)
               (fun i => match Home.callback env i with
                         | inr x => x
                         | inl _ => {| Home.ex_code := [];
                                       Home.ex_fullResponse := [] |}
                         end)); [reflexivity| |exact Hsettle].
    intros i Hi. destruct (Hall i Hi) as [x Hx]. now rewrite Hx.
  - destruct (promise_all_rejects _ (Home.callback env)
                (Home.concurrentRequests s) (Home.settle_order env) i e Hi
                (Hsettle i Hi) He) as (j & e' & _ & _ & ->).
    reflexivity.
Qed.

(** *** The poll loop *)

Lemma poll_loop_done : forall answers res,
  done res = true -> Home.poll_loop answers res = (Home.PollDone res, []).
Proof. intros [|a answers] res H; simpl; now rewrite H. Qed.

Lemma poll_loop_next : forall r rest res,
  done res = false ->
  Home.poll_loop (inr r :: rest) res
  = let (o, t) := Home.poll_loop rest r in
    (o, Sleep 5000 :: GetVideosOperation res :: t).
Proof. intros r rest res H. simpl. now rewrite H. Qed.

(** Every status fetch uses the handle the fetch before it returned, waits
    5000 ms first, and the loop stops at the first handle that is done. *)
Lemma poll_loop_until_done : forall pre d rest op,
  done op = false ->
  Forall (fun r => done r = false) pre ->
  done d = true ->
  Home.poll_loop (map inr pre ++ inr d :: rest) op
  = (Home.PollDone d,
     flat_map (fun h => [Sleep 5000; GetVideosOperation h]) (op :: pre)).
Proof.
  induction pre as [|r pre IH]; intros d rest op Hop Hpre Hd.
  - cbn [map app]. rewrite poll_loop_next by exact Hop.
    rewrite poll_loop_done by exact Hd. reflexivity.
  - inversion Hpre as [|? ? Hr Hpre']; subst.
    cbn [map app]. rewrite poll_loop_next by exact Hop.
    rewrite (IH d rest r Hr Hpre' Hd). reflexivity.
Qed.

Lemma resolveVideo_tail : forall res s1 env,
  exists t, snd (Home.resolveVideo res s1 env)
            = Fetch (Home.videoUrl res env) :: t
            /\ filter Home.is_poll t = [] /\ filter Home.is_fetch t = [].
Proof.
  intros res s1 env. unfold Home.resolveVideo.
  destruct (Home.fetch_result env); [now exists [] | now exists [] |].
  destruct (Home.blob_result env);
    [now exists [ReadBlob] | now exists [ReadBlob]
     | now exists [ReadBlob; CreateObjectURL]].
Qed.

(** C7: the poll loop waits 5000 ms before each status fetch, passes the
    handle returned by the fetch before it (the submission handle only the
    first time) and stops at the first handle that is done.  For a job whose
    status fetches answer not done, not done, done, [generateMedia] makes
    exactly three status fetches, then exactly one resource fetch for the
    result of the last handle, and no status fetch after that. *)
Theorem poller_three_fetches_then_resolve :
  (forall pre d rest op,
     done op = false ->
     Forall (fun r => done r = false) pre ->
     done d = true ->
     Home.poll_loop (map inr pre ++ inr d :: rest) op
     = (Home.PollDone d,
        flat_map (fun h => [Sleep 5000; GetVideosOperation h]) (op :: pre)))
  /\
  (forall (s : Home.HomeState) (env : Home.MediaEnv) (op r1 r2 r3 : Operation)
          (rest : list (JsError + Operation)),
     Home.media_client env = None ->
     Home.mediaType s = Home.video_media ->
     Home.submit env = Resolves op ->
     done op = false ->
     Home.polls env = inr r1 :: inr r2 :: inr r3 :: rest ->
     done r1 = false -> done r2 = false -> done r3 = true ->
     let r := Home.generateMedia s env in
     filter Home.is_poll (Home.trace r)
     = [GetVideosOperation op; GetVideosOperation r1; GetVideosOperation r2]
     /\ filter Home.is_fetch (Home.trace r) = [Fetch (Home.videoUrl r3 env)]
     /\ exists t,
          Home.trace r
          = [GenerateVideos (Home.videoRequest s);
             Sleep 5000; GetVideosOperation op;
             Sleep 5000; GetVideosOperation r1;
             Sleep 5000; GetVideosOperation r2;
             Fetch (Home.videoUrl r3 env)] ++ t
          /\ filter Home.is_poll t = [] /\ filter Home.is_fetch t = []).
Proof.
  split; [exact poll_loop_until_done|].
  intros s env op r1 r2 r3 rest Hc Hm Hs Hop Hp H1 H2 H3 r. subst r.
  unfold Home.generateMedia. rewrite Hc, Hm. unfold Home.videoBranch.
  rewrite Hs, Hp.
  pose proof (poll_loop_until_done [r1; r2] r3 rest op Hop
                (Forall_cons _ H1 (Forall_cons _ H2 (Forall_nil _))) H3) as P.
  cbn [map app] in P. rewrite P. clear P.
  destruct (resolveVideo_tail r3 (Home.setLoading true s) env)
    as (t & Ht & Hp' & Hf').
  destruct (Home.resolveVideo r3 (Home.setLoading true s) env)
    as [[s2 c] t2]. cbn [snd] in Ht. subst t2.
  cbn [Home.trace flat_map app filter Home.is_poll Home.is_fetch].
  rewrite Hp', Hf'. repeat split. exists t. now repeat split.
Qed.

(** *** The loading flag *)

Lemma contentBranch_loading : forall req s1 env,
  Home.completion (Home.contentBranch req s1 env) = Returned ->
  Home.loading (Home.state (Home.contentBranch req s1 env)) = false.
Proof.
  intros req s1 env. unfold Home.contentBranch.
  destruct (Home.content_call env) as [|e|res]; cbn; try discriminate;
    try reflexivity.
  intros _. unfold Home.afterContent. now destruct (inlineLookup res).
Qed.

Lemma videoBranch_loading : forall s s1 env,
  Home.completion (Home.videoBranch s s1 env) = Returned ->
  Home.loading (Home.state (Home.videoBranch s s1 env)) = false.
Proof.
  intros s s1 env. unfold Home.videoBranch.
  destruct (Home.submit env) as [|e|op]; cbn; try discriminate;
    try reflexivity.
  destruct (Home.poll_loop (Home.polls env) op) as [[res|e|] t]; cbn;
    try discriminate; try reflexivity.
  unfold Home.resolveVideo.
  destruct (Home.fetch_result env); cbn; try discriminate; try reflexivity.
  destruct (Home.blob_result env); cbn; try discriminate; reflexivity.
Qed.

(** C10, as amended: an invocation of [generateCode], [handleChat] or
    [generateMedia] that gets past its entry guard ([imageBase64] not empty,
    [userInput.trim()] not empty, none) and returns, leaves [loading] false,
    whether its [try] body ran to its end or threw. *)
Theorem loading_cleared_after_try :
  forall s : Home.HomeState,
    (forall env,
       Home.truthy (Home.imageBase64 s) = true ->
       Home.completion (Home.generateCode s env) = Returned ->
       Home.loading (Home.state (Home.generateCode s env)) = false)
    /\ (forall env,
          Home.truthy (trim (Home.userInput s)) = true ->
          Home.completion (Home.handleChat s env) = Returned ->
          Home.loading (Home.state (Home.handleChat s env)) = false)
    /\ (forall env,
          Home.completion (Home.generateMedia s env) = Returned ->
          Home.loading (Home.state (Home.generateMedia s env)) = false).
Proof.
  intro s. repeat split.
  - intros env Hg. unfold Home.generateCode. rewrite (truthy_true _ Hg).
    destruct (Home.code_client env); cbn; [discriminate|].
    destruct (promise_all _ _ _); cbn; try discriminate; reflexivity.
  - intros env Hg. unfold Home.handleChat. rewrite (truthy_true _ Hg).
    destruct (Home.chat_client env); cbn; [discriminate|].
    destruct (Home.chat_call env); cbn; try discriminate; reflexivity.
  - intros env. unfold Home.generateMedia.
    destruct (Home.media_client env); cbn; [discriminate|].
    destruct (Home.mediaType s).
    + apply contentBranch_loading.
    + apply videoBranch_loading.
    + apply contentBranch_loading.
Qed.

Import Preview.

(** *** The status channel *)

Lemma withUi_same : forall f c, f (ui c) = ui c -> withUi f c = c.
Proof. intros f [o u] H. unfold withUi. cbn in *. now rewrite H. Qed.

Lemma tsx_handleMessage_other : forall oid s m i p,
  i <> oid -> Tsx.handleMessage oid (SketchStatus s m i) p = p.
Proof.
  intros oid s m i p H. unfold Tsx.handleMessage.
  destruct (Z.eqb_spec i oid); [contradiction | reflexivity].
Qed.

Lemma jsx_handleMessage_other : forall oid s m i p,
  i <> oid -> Jsx.handleMessage oid (SketchStatus s m i) p = p.
Proof.
  intros oid s m i p H. unfold Jsx.handleMessage.
  destruct (Z.eqb_spec i oid); [contradiction | reflexivity].
Qed.

(** C6: a status message whose id is not the id of any mounted candidate
    changes nothing: every component keeps its status and its error text, in
    both versions of the listener. *)
Theorem stale_message_discarded :
  forall (s : Status) (m : jsstring) (i : Z) (host : list Mounted),
    ~ In i (map (fun c => Home.id (output c)) host) ->
    Tsx.dispatch (SketchStatus s m i) host = host
    /\ Jsx.dispatch (SketchStatus s m i) host = host.
Proof.
  intros s m i host. induction host as [|c host IH]; intro H.
  - split; reflexivity.
  - cbn [map In] in H.
    assert (Hc : i <> Home.id (output c)) by (intro E; apply H; now left).
    assert (Hr : ~ In i (map (fun c => Home.id (output c)) host))
      by (intro E; apply H; now right).
    destruct (IH Hr) as [IH1 IH2]. unfold Tsx.dispatch, Jsx.dispatch in *.
    cbn [map]. rewrite IH1, IH2. split; f_equal; apply withUi_same.
    + now apply tsx_handleMessage_other.
    + now apply jsx_handleMessage_other.
Qed.

(** *** Editing the code *)

Lemma rerender_map : forall (g : Home.Candidate -> Home.Candidate) host,
  rerender (map g) host
  = map (fun c => {| output := g (output c); ui := ui c |}) host.
Proof.
  intros g host. unfold rerender. induction host as [|c host IH];
    [reflexivity|]. cbn [map combine fst snd]. f_equal. exact IH.
Qed.

Lemma tsx_edit_keeps_ui : forall k v host,
  map ui (Tsx.editorOnChange k v host) = map ui host.
Proof.
  intros k v host. unfold Tsx.editorOnChange.
  destruct (nth_error host k) as [c|]; [|reflexivity].
  unfold Home.onCodeChange. rewrite rerender_map, map_map. reflexivity.
Qed.

Lemma updateUi_nth : forall k f host c,
  nth_error host k = Some c ->
  nth_error (updateUi k f host) k = Some (withUi f c).
Proof.
  induction k as [|k IH]; intros f [|x host] c H; try discriminate.
  - injection H as ->. reflexivity.
  - simpl in *. now apply IH.
Qed.

(** The JavaScript version does reset the status of the edited component. *)
Lemma jsx_edit_resets_status : forall k v host c,
  nth_error host k = Some c ->
  exists c', nth_error (Jsx.editorOnChange k v host) k = Some c'
             /\ sketchStatus (ui c') = idle
             /\ Home.code (output c') = Home.or_empty v
             /\ Home.id (output c') = Home.id (output c).
Proof.
  intros k v host c H. unfold Jsx.editorOnChange. rewrite H.
  unfold Home.onCodeChange. rewrite rerender_map.
  eexists. split.
  - apply updateUi_nth. apply map_nth_error. exact H.
  - cbn. rewrite Z.eqb_refl. now repeat split.
Qed.

(** *** The sandbox *)

Lemma statuses_app : forall a b, statuses (a ++ b) = statuses a ++ statuses b.
Proof.
  induction a as [|[s m i|] a IH]; intro b; cbn; [reflexivity| |apply IH].
  f_equal. apply IH.
Qed.

(** A sketch that keeps the [post] of the script, posts nothing by itself and
    raises no uncaught error: the run shows [loading], then [success] when
    the evaluation ran to its end and the timer fired, [error] when it threw
    (or, in the JavaScript version, found no [setup]), and nothing more when
    it never ends. *)
Lemma quiet_run_lifecycle :
  forall (sem : jsstring -> Sketch) (o : Home.Candidate),
    (let b := sem (Tsx.embedded (Home.code o)) in
     compiles b = true -> binding b = ScriptPost -> posted_sync b = [] ->
     before_timer b = [] -> after_timer b = [] ->
     statuses (Tsx.srcDoc sem o)
     = loading :: match sync b with
                  | Completes _ => if timer_fires b then [success] else []
                  | Throws _ => [error]
                  | Diverges => []
                  end)
    /\
    (let b := sem (Jsx.wrappedCode (Home.code o)) in
     compiles b = true -> binding b = ScriptPost -> posted_sync b = [] ->
     before_timer b = [] -> after_timer b = [] ->
     statuses (Jsx.renderSketch sem o)
     = loading :: match sync b with
                  | Completes true => if timer_fires b then [success] else []
                  | Completes false => [error]
                  | Throws _ => [error]
                  | Diverges => []
                  end).
Proof.
  intros sem o. split; intros b Hc Hb Hp Hbe Haf; subst b.
  - unfold Tsx.srcDoc. rewrite Hc, Hb, Hp, Hbe, Haf.
    destruct (sync _); cbn; try reflexivity. now destruct (timer_fires _).
  - unfold Jsx.renderSketch. rewrite Hc, Hb, Hp, Hbe, Haf.
    destruct (sync _) as [m|[|]|]; cbn; try reflexivity.
    now destruct (timer_fires _).
Qed.


(** C8, as amended: for a candidate whose code holds no [```] and has no
    white space at either end, the [sketch.js] payload of the export, wrapped
    as [```js\n...\n```] and extracted again, is the code itself; every
    candidate whose code was extracted from a fenced answer is of that kind. *)
Theorem export_reextract_roundtrip :
  (forall (c : Mounted) (payload : jsstring),
     Tsx.zipFile Tsx.sketch_js (Tsx.handleDownload c) = Some payload ->
     has_fence (Home.code (output c)) = false ->
     trim (Home.code (output c)) = Home.code (output c) ->
     extractCode (wrap_js payload) = Home.code (output c))
  /\ (forall (res : ContentResponse) (m : jsstring),
        exec (Home.or_empty (text res)) = Some m ->
        has_fence (Home.ex_code (Home.extractResponse res)) = false
        /\ trim (Home.ex_code (Home.extractResponse res))
           = Home.ex_code (Home.extractResponse res)).
Proof.
  split.
  - intros c payload Hz Hf Ht. cbv in Hz. injection Hz as <-.
    rewrite extractCode_wrap_js by exact Hf. exact Ht.
  - intros res m H. cbn [Home.ex_code Home.extractResponse].
    unfold extractCode. rewrite H. split.
    + exact (exec_capture_no_fence _ _ H).
    + apply trim_idem.
Qed.

Lemma handleDownload_sketch_js : forall c,
  Tsx.zipFile Tsx.sketch_js (Tsx.handleDownload c) = Some (Home.code (output c)).
Proof. intro c. reflexivity. Qed.

(* ================================================================= *)
(** * Instances *)

Import Examples.

(** The batch of [env_ok], as [generateCode] assembles it. *)
Example generateCode_env_ok :
  Home.outputs (Home.state (Home.generateCode s_image env_ok))
  = [ {| Home.id := 1700000000000; Home.code := sketch_x;
         Home.fullResponse := wrap_js sketch_x |};
      {| Home.id := 1700000000001; Home.code := sketch_x;
         Home.fullResponse := wrap_js sketch_x |};
      {| Home.id := 1700000000002; Home.code := sketch_x;
         Home.fullResponse := wrap_js sketch_x |} ].
Proof. vm_compute. reflexivity. Qed.

Lemma generateCode_batch_in_submission_order_witness :
  length (Home.outputs (Home.state (Home.generateCode s_image env_ok))) = 3
  /\ NoDup (map Home.id
              (Home.outputs (Home.state (Home.generateCode s_image env_ok)))).
Proof.
  destruct (generateCode_batch_in_submission_order s_image env_ok
              (fun _ => plain (wrap_js sketch_x))) as (_ & _ & Hlen & Hids).
  - cbn. lia.
  - reflexivity.
  - reflexivity.
  - intros i _. reflexivity.
  - intros i Hi. cbn in Hi. cbn.
    destruct i as [|[|[|i]]]; [tauto | tauto | tauto | lia].
  - split; [exact Hlen|]. apply Hids. intros i j _. cbn. lia.
Defined.

(** The ids of a batch are the readings of the clock plus the position: when
    the clock is set back by one millisecond while the batch is assembled,
    the first two candidates get the same id, although the batch succeeds
    and its three candidates are in submission order. *)
Lemma batch_ids_repeat_when_the_clock_steps_back :
  Home.completion (Home.generateCode s_image env_clock_back) = Returned
  /\ map Home.id
       (Home.outputs (Home.state (Home.generateCode s_image env_clock_back)))
     = [1700000000001; 1700000000001; 1700000000002]%Z
  /\ ~ NoDup (map Home.id
                (Home.outputs
                   (Home.state (Home.generateCode s_image env_clock_back))))
  /\ ~ (forall (s : Home.HomeState) (env : Home.CodeEnv)
               (responses : nat -> ContentResponse),
          1 <= Home.concurrentRequests s ->
          Home.truthy (Home.imageBase64 s) = true ->
          Home.code_client env = None ->
          (forall i, i < Home.concurrentRequests s ->
                     Home.call env i = inr (responses i)) ->
          (forall i, i < Home.concurrentRequests s ->
                     In i (Home.settle_order env)) ->
          NoDup (map Home.id
                   (Home.outputs (Home.state (Home.generateCode s env))))).
Proof.
  assert (E : map Home.id
                (Home.outputs
                   (Home.state (Home.generateCode s_image env_clock_back)))
              = [1700000000001; 1700000000001; 1700000000002]%Z)
    by (vm_compute; reflexivity).
  assert (N : ~ NoDup (map Home.id
                         (Home.outputs
                            (Home.state
                               (Home.generateCode s_image env_clock_back))))).
  { rewrite E. intro H. apply NoDup_cons_iff in H as [H _].
    apply H. now left. }
  split; [vm_compute; reflexivity|]. split; [exact E|]. split; [exact N|].
  intro H. apply N.
  apply (H s_image env_clock_back (fun _ => plain (wrap_js sketch_x))).
  - cbn. lia.
  - reflexivity.
  - reflexivity.
  - intros i _. reflexivity.
  - intros i Hi. cbn in Hi. cbn.
    destruct i as [|[|[|i]]]; [tauto | tauto | tauto | lia].
Qed.

Lemma generateCode_all_or_nothing_witness :
  Home.outputs (Home.state (Home.generateCode s_image env_fail))
  = Home.outputs s_image
  /\ Home.loading (Home.state (Home.generateCode s_image env_fail)) = false.
Proof.
  destruct (generateCode_all_or_nothing s_image env_fail 1 quota)
    as (_ & Hout & Hload & _).
  - reflexivity.
  - reflexivity.
  - cbn. lia.
  - reflexivity.
  - cbn. tauto.
  - split; [exact Hout | exact Hload].
Defined.

Lemma generateCode_without_image_witness :
  Home.generateCode Home.initialState env_ok
  = {| Home.state := Home.initialState; Home.completion := Returned;
       Home.trace := [] |}.
Proof. apply (generateCode_without_image Home.initialState env_ok). reflexivity. Defined.

Lemma poller_three_fetches_then_resolve_witness :
  filter Home.is_poll (Home.trace (Home.generateMedia s_video env_video))
  = [GetVideosOperation op0; GetVideosOperation op1; GetVideosOperation op2]
  /\ filter Home.is_fetch (Home.trace (Home.generateMedia s_video env_video))
     = [Fetch (Home.videoUrl op3 env_video)]
  /\ Home.poll_loop (map inr [op1; op2] ++ [inr op3]) op0
     = (Home.PollDone op3,
        flat_map (fun h => [Sleep 5000; GetVideosOperation h]) [op0; op1; op2]).
Proof.
  destruct poller_three_fetches_then_resolve as [Hloop Hrun].
  destruct (Hrun s_video env_video op0 op1 op2 op3 [])
    as (Hp & Hf & _); try reflexivity.
  split; [exact Hp|]. split; [exact Hf|].
  apply (Hloop [op1; op2] op3 [] op0); try reflexivity.
  repeat constructor.
Defined.

Lemma stale_message_discarded_witness :
  Tsx.dispatch (SketchStatus error (of_string "late") 99) [c_success]
  = [c_success]
  /\ Jsx.dispatch (SketchStatus error (of_string "late") 99) [c_success]
     = [c_success].
Proof.
  apply (stale_message_discarded error (of_string "late") 99 [c_success]).
  cbn. intros [H|[]]. discriminate H.
Defined.

(** C3: the editor of the TypeScript version never touches the state of a
    component: an edit changes the code of a candidate whose sketch ran well
    and leaves its status at [success], where the claim wants [idle]. *)
Theorem tsx_edit_leaves_stale_success :
  (forall k v host, map ui (Tsx.editorOnChange k v host) = map ui host)
  /\ Tsx.editorOnChange 0 (Some program_with_fence) [c_success]
     = [ {| output := {| Home.id := 7; Home.code := program_with_fence;
                         Home.fullResponse := sketch_x |};
            ui := {| sketchStatus := success; sketchError := [];
                     selectedLibs := [] |} |} ].
Proof.
  split.
  - exact tsx_edit_keeps_ui.
  - reflexivity.
Qed.

(** The same edit in the JavaScript version. *)
Example jsx_edit_resets_success :
  Jsx.editorOnChange 0 (Some program_with_fence) [c_success]
  = [ {| output := {| Home.id := 7; Home.code := program_with_fence;
                      Home.fullResponse := sketch_x |};
         ui := {| sketchStatus := idle; sketchError := [];
                  selectedLibs := [] |} |} ].
Proof. reflexivity. Qed.

(** A sketch that only defines [setup]. *)
Example quiet_run_example :
  statuses (Tsx.srcDoc sem_quiet o_quiet) = [loading; success]
  /\ statuses (Jsx.renderSketch sem_quiet o_quiet) = [loading; success].
Proof. split; reflexivity. Qed.

(** C2: the run of the candidate whose [setup] throws when p5 calls it shows
    [loading], then the [error] posted by [window.onerror], then the
    [success] posted by the timer, which the script never clears: an error is
    followed by a success in the same run, in both versions, and the
    sequence is neither [loading, success] nor [loading, error]. *)
Theorem sandbox_error_then_success :
  statuses (Tsx.srcDoc sem_setup_throws o_seven) = [loading; error; success]
  /\ statuses (Jsx.renderSketch sem_setup_throws o_seven)
     = [loading; error; success]
  /\ ~ (forall sem o,
          statuses (Tsx.srcDoc sem o) = [loading; success]
          \/ statuses (Tsx.srcDoc sem o) = [loading; error]).
Proof.
  split; [reflexivity|]. split; [reflexivity|].
  intro H. destruct (H sem_setup_throws o_seven) as [E|E]; discriminate E.
Qed.

(** Sketches that break the frame of the script: a [let post] leaves the
    [error] of the [catch] block alone, a function [post] silences the
    [try] block, and a sketch that never ends stops the run at [loading]. *)
Example frame_breaking_sketches :
  statuses (Tsx.srcDoc sem_let_post o_let_post) = [error]
  /\ Tsx.srcDoc sem_function_post o_function_post = []
  /\ statuses (Tsx.srcDoc sem_forever o_forever) = [loading].
Proof. repeat split. Qed.

(** The host ends that run showing [success], with the error text kept. *)
Example host_after_error_then_success :
  map ui (fold_left (fun h m => Tsx.dispatch m h)
            (Tsx.srcDoc sem_setup_throws o_seven)
            [{| output := o_seven; ui := initialPreview |}])
  = [ {| sketchStatus := success;
         sketchError := of_string "ReferenceError: foo is not defined";
         selectedLibs := [] |} ].
Proof. reflexivity. Qed.




Lemma export_reextract_roundtrip_witness :
  extractCode (wrap_js sketch_x) = Home.code (output c_plain)
  /\ trim (Home.ex_code (Home.extractResponse (plain (wrap_js sketch_x))))
     = Home.ex_code (Home.extractResponse (plain (wrap_js sketch_x))).
Proof.
  destruct export_reextract_roundtrip as [Hr He].
  split.
  - apply (Hr c_plain sketch_x); reflexivity.
  - exact (proj2 (He (plain (wrap_js sketch_x)) (sketch_x ++ [LF]) eq_refl)).
Defined.

(** The candidate made of an answer without a fence keeps the line feed at
    its end; the round trip loses it. *)
Lemma roundtrip_loses_trailing_newline :
  Home.code (output c_newline) = [120%N; LF]
  /\ Tsx.zipFile Tsx.sketch_js (Tsx.handleDownload c_newline)
     = Some [120%N; LF]
  /\ has_fence (Home.code (output c_newline)) = false
  /\ extractCode (wrap_js [120%N; LF]) = [120%N]
  /\ extractCode (wrap_js (Home.code (output c_newline)))
     <> Home.code (output c_newline).
Proof.
  repeat split; try reflexivity. intro H. discriminate H.
Qed.

Lemma loading_cleared_after_try_witness :
  Home.loading (Home.state (Home.generateCode s_image env_fail)) = false
  /\ Home.loading
       (Home.state (Home.handleChat (Home.setUserInput sketch_x s_image) chat_ok))
     = false
  /\ Home.loading (Home.state (Home.generateMedia s_video env_video)) = false.
Proof.
  split; [|split].
  - apply (proj1 (loading_cleared_after_try s_image) env_fail); reflexivity.
  - apply (proj1 (proj2 (loading_cleared_after_try
                           (Home.setUserInput sketch_x s_image))) chat_ok);
      reflexivity.
  - apply (proj2 (proj2 (loading_cleared_after_try s_video)) env_video).
    reflexivity.
Defined.

(** While a generation is in flight, Enter in the chat box with a blank input
    runs [handleChat], which returns at its guard: [loading] is still true. *)
Lemma handleChat_blank_keeps_loading :
  Home.loading s_busy = true
  /\ Home.completion (Home.handleChat s_busy chat_ok) = Returned
  /\ Home.loading (Home.state (Home.handleChat s_busy chat_ok)) = true.
Proof. repeat split. Qed.

(* ================================================================= *)
(** * Further properties *)

Import Addons MoreExamples.

(** *** More on the extractor *)

Lemma has_fence_intro : forall pre R, has_fence (pre ++ fence ++ R) = true.
Proof.
  induction pre as [|c pre IH]; intro R.
  - destruct R; reflexivity.
  - change ((c :: pre) ++ fence ++ R) with (c :: (pre ++ fence ++ R)).
    rewrite has_fence_cons, IH. apply orb_true_r.
Qed.

Lemma exec_no_fence : forall t, has_fence t = false -> exec t = None.
Proof.
  intros t H. destruct (exec t) as [m|] eqn:E; [|reflexivity].
  destruct (exec_inv _ _ E) as (pre & R & -> & _).
  rewrite has_fence_intro in H. discriminate H.
Qed.

Lemma trim_inside : forall m, exists a b, m = a ++ trim m ++ b.
Proof.
  intro m. unfold trim.
  destruct (trimStart_suffix m) as [a Ha].
  destruct (trimEnd_prefix (trimStart m)) as [b Hb].
  exists a, b. now rewrite <- Hb.
Qed.

(** X1: the extractor is idempotent: extracting from what it returned gives
    the same text again (a result taken from a block holds no fence, and a text
    without a block is returned as it is). *)
Theorem extractCode_idempotent :
  forall text, extractCode (extractCode text) = extractCode text.
Proof.
  intro text. unfold extractCode at 2 3.
  destruct (exec text) as [m|] eqn:E.
  - unfold extractCode.
    now rewrite (exec_no_fence _ (exec_capture_no_fence _ _ E)).
  - unfold extractCode. now rewrite E.
Qed.

(** What [Promise.all] resolves with holds only values that its promises
    fulfilled with. *)
Section AllValues.
Variable T : Type.
Variable P : T -> Prop.

Lemma update_In : forall i (v x : option T) l,
  In x (update i v l) -> x = v \/ In x l.
Proof.
  intros i v x l. revert i. induction l as [|y l IH]; intros i H.
  - destruct i; contradiction.
  - destruct i as [|i]; cbn [update] in H.
    + destruct H as [<-|H]; [now left | right; now right].
    + destruct H as [<-|H]; [right; now left|].
      destruct (IH i H) as [->|H']; [now left | right; now right].
Qed.

Lemma collect_In : forall (l : list (option T)) x,
  In x (collect l) -> In (Some x) l.
Proof.
  induction l as [|[y|] l IH]; intros x H; cbn [collect] in H.
  - contradiction.
  - destruct H as [<-|H]; [now left | right; now apply IH].
  - right. now apply IH.
Qed.

Lemma all_run_values :
  forall (outcome : nat -> JsError + T) order (st : AllState T) vs,
    (forall i v, outcome i = inr v -> P v) ->
    (forall v, In (Some v) (values st) -> P v) ->
    all_run outcome st order = Some (inr vs) ->
    Forall P vs.
Proof.
  intros outcome. induction order as [|i rest IH]; intros st vs Hout Hst H.
  - discriminate H.
  - cbn [all_run] in H.
    destruct (nth_error (values st) i) as [[x|]|]; try now apply (IH st).
    destruct (outcome i) as [e|v] eqn:Ei; [discriminate H|].
    assert (Hup : forall w, In (Some w) (update i (Some v) (values st)) -> P w).
    { intros w Hw. destruct (update_In _ _ _ _ Hw) as [E|Hin].
      - injection E as ->. now apply (Hout i).
      - now apply Hst. }
    destruct (pred (remaining st) =? 0).
    + injection H as <-. apply Forall_forall. intros w Hw.
      apply Hup. now apply collect_In.
    + apply (IH {| values := update i (Some v) (values st);
                   remaining := pred (remaining st) |} vs Hout Hup H).
Qed.

Lemma promise_all_values :
  forall n (outcome : nat -> JsError + T) order vs,
    (forall i v, outcome i = inr v -> P v) ->
    promise_all n outcome order = Resolves vs ->
    Forall P vs.
Proof.
  intros n outcome order vs Hout H. unfold promise_all in H.
  destruct (n =? 0).
  - injection H as <-. constructor.
  - destruct (all_run outcome (all_init T n) order) as [[e|ws]|] eqn:E;
      try discriminate H.
    injection H as ->.
    apply (all_run_values outcome order (all_init T n) vs Hout); [|exact E].
    intros v Hv. cbn [values all_init] in Hv.
    apply repeat_spec in Hv. discriminate Hv.
Qed.
End AllValues.

(** [code] is a contiguous part of [full]. *)
Definition part_of (code full : jsstring) : Prop :=
  exists pre post, full = pre ++ code ++ post.

Lemma extractCode_part_of : forall t, part_of (extractCode t) t.
Proof.
  intro t. unfold part_of, extractCode. destruct (exec t) as [m|] eqn:E.
  - destruct (exec_inv _ _ E) as (pre & R & Ht & HR).
    destruct (tag_then_rest_inv _ _ HR) as [(w & post & HRr) _].
    destruct (trim_inside m) as (a & b & Hm).
    exists (pre ++ fence ++ w ++ a), (b ++ fence ++ post).
    rewrite Ht, HRr. rewrite Hm at 1. now rewrite <- !app_assoc.
  - exists [], []. now rewrite app_nil_r.
Qed.

Lemma part_of_length : forall code full,
  part_of code full -> length code <= length full.
Proof.
  intros code full (pre & post & ->). rewrite !length_app. lia.
Qed.

Lemma assemble_In : forall now results i c,
  In c (Home.assemble now i results) ->
  exists r, In r results /\ Home.code c = Home.ex_code r
            /\ Home.fullResponse c = Home.ex_fullResponse r.
Proof.
  intros now. induction results as [|r rest IH]; intros i c H.
  - contradiction.
  - cbn [Home.assemble] in H. destruct H as [<-|H].
    + exists r. split; [now left | now split].
    + destruct (IH _ _ H) as (r' & Hr & Hc & Hf).
      exists r'. split; [now right | now split].
Qed.

(** X2: the code of a candidate, as [generateCode] builds it, is a
    contiguous part of its full response, so it is never longer: the
    extractor removes text around the code and adds none.  This holds for
    the record the request callback resolves to, and for every candidate
    that a run of [generateCode] puts in [outputs]; the candidates that were
    there before are kept as they were or dropped. *)
Theorem extractCode_is_part_of_text :
  (forall res : ContentResponse,
      (exists pre post,
          Home.ex_fullResponse (Home.extractResponse res)
          = pre ++ Home.ex_code (Home.extractResponse res) ++ post)
      /\ length (Home.ex_code (Home.extractResponse res))
         <= length (Home.ex_fullResponse (Home.extractResponse res)))
  /\ (forall (s : Home.HomeState) (env : Home.CodeEnv) (c : Home.Candidate),
        In c (Home.outputs (Home.state (Home.generateCode s env))) ->
        In c (Home.outputs s)
        \/ ((exists pre post,
                Home.fullResponse c = pre ++ Home.code c ++ post)
            /\ length (Home.code c) <= length (Home.fullResponse c))).
Proof.
  assert (Hres : forall res : ContentResponse,
             part_of (Home.ex_code (Home.extractResponse res))
                     (Home.ex_fullResponse (Home.extractResponse res))).
  { intro res. cbn [Home.ex_code Home.ex_fullResponse Home.extractResponse].
    apply extractCode_part_of. }
  split.
  - intro res. split; [apply Hres | apply part_of_length, Hres].
  - intros s env c H. unfold Home.generateCode in H.
    destruct (negb (Home.truthy (Home.imageBase64 s))); [now left|].
    destruct (Home.code_client env); [now left|].
    destruct (promise_all _ _ _) as [|e|results] eqn:E; try now left.
    right. cbn [Home.state Home.outputs Home.setLoading Home.setOutputs] in H.
    destruct (assemble_In _ _ _ _ H) as (r & Hr & -> & ->).
    assert (Hall : Forall (fun r => part_of (Home.ex_code r)
                                            (Home.ex_fullResponse r)) results).
    { apply (promise_all_values _
               (fun r => part_of (Home.ex_code r) (Home.ex_fullResponse r))
               _ _ _ results) in E; [exact E|].
      intros i v Hv. unfold Home.callback in Hv.
      destruct (Home.call env i) as [e|res]; [discriminate Hv|].
      injection Hv as <-. apply Hres. }
    rewrite Forall_forall in Hall. specialize (Hall r Hr).
    split; [exact Hall | now apply part_of_length].
Qed.

(** *** [split(',')] and the image data *)

Lemma split_comma_nonempty : forall s, split_comma s <> [].
Proof.
  destruct s as [|c r]; cbn [split_comma]; [discriminate|].
  destruct (c =? COMMA)%N; [discriminate|].
  destruct (split_comma r); discriminate.
Qed.

Lemma split_comma_no_comma : forall s, ~ In COMMA s -> split_comma s = [s].
Proof.
  induction s as [|c r IH]; intro H; [reflexivity|].
  cbn [split_comma]. destruct (N.eqb_spec c COMMA) as [->|Hc].
  - exfalso. apply H. now left.
  - rewrite IH; [reflexivity|]. intro Hr. apply H. now right.
Qed.

Lemma split_comma_app : forall a b,
  ~ In COMMA a -> split_comma (a ++ COMMA :: b) = a :: split_comma b.
Proof.
  induction a as [|c a IH]; intros b H.
  - reflexivity.
  - cbn [app split_comma]. destruct (N.eqb_spec c COMMA) as [->|Hc].
    + exfalso. apply H. now left.
    + rewrite IH; [reflexivity|]. intro Hr. apply H. now right.
Qed.

Lemma join_cons : forall sep x l,
  l <> [] -> join sep (x :: l) = x ++ sep ++ join sep l.
Proof. intros sep x [|y l] H; [contradiction | reflexivity]. Qed.

Lemma split_comma_join :
  forall s,
    join [COMMA] (split_comma s) = s
    /\ Forall (fun piece => ~ In COMMA piece) (split_comma s).
Proof.
  induction s as [|c r [IHj IHf]].
  - split; [reflexivity|]. repeat constructor. intros [].
  - pose proof (split_comma_nonempty r) as Hne. cbn [split_comma].
    destruct (N.eqb_spec c COMMA) as [->|Hc].
    + split.
      * rewrite join_cons by exact Hne. now rewrite IHj.
      * constructor; [intros []|exact IHf].
    + destruct (split_comma r) as [|h t]; [contradiction|].
      apply Forall_cons_iff in IHf as [Hh Ht]. split.
      * destruct t as [|h' t].
        -- cbn [join] in *. now rewrite IHj.
        -- rewrite join_cons by discriminate.
           rewrite join_cons in IHj by discriminate.
           rewrite <- IHj. reflexivity.
      * constructor; [|exact Ht]. intros [E|E]; [congruence | exact (Hh E)].
Qed.

(** X3: the image data sent with a request is what follows the first comma
    of [imageBase64]: for a data URL [head,data] without any other comma it is
    [data]; when [imageBase64] holds no comma the part is sent with undefined
    data. *)
Theorem imagePart_data :
  forall s : Home.HomeState,
    (~ In COMMA (Home.imageBase64 s) ->
     Home.imagePart s = InlineDataPart None Home.image_jpeg)
    /\ (forall head data,
          Home.imageBase64 s = head ++ COMMA :: data ->
          ~ In COMMA head -> ~ In COMMA data ->
          Home.imagePart s = InlineDataPart (Some data) Home.image_jpeg).
Proof.
  intro s. unfold Home.imagePart. split.
  - intro H. now rewrite (split_comma_no_comma _ H).
  - intros head data E Hh Hd.
    now rewrite E, (split_comma_app _ _ Hh), (split_comma_no_comma _ Hd).
Qed.

(** *** More on [Promise.all] *)

Section AllMore.
Variable T : Type.

(** While a promise that is not in the settle order is unsettled and the
    ones that settle fulfil, the whole stays pending. *)
Lemma all_run_pending :
  forall (outcome : nat -> JsError + T) n order (slot : nat -> option T) i,
    i < n -> slot i = None -> ~ In i order ->
    (forall j, In j order -> j < n -> exists x, outcome j = inr x) ->
    all_run outcome (at_slots n slot) order = None.
Proof.
  intros outcome n. induction order as [|k rest IH];
    intros slot i Hi Hs Hnot Hok; [reflexivity|].
  assert (Hik : i <> k) by (intro E; apply Hnot; now left).
  assert (Hrest : ~ In i rest) by (intro E; apply Hnot; now right).
  assert (Hok' : forall j, In j rest -> j < n -> exists x, outcome j = inr x)
    by (intros j Hj; apply Hok; now right).
  rewrite all_run_step.
  destruct (Nat.ltb_spec k n) as [Hk|Hk]; cbn [andb];
    [|now apply (IH slot i)].
  destruct (slot k) eqn:Sk; cbn [is_none]; [now apply (IH slot i)|].
  destruct (Hok k (or_introl eq_refl) Hk) as [x ->].
  assert (Hf : fill slot k x i = None).
  { unfold fill. destruct (Nat.eqb_spec i k); [contradiction | exact Hs]. }
  pose proof (count_pos T (fill slot k x) i n Hi Hf) as Hpos.
  destruct (remaining (at_slots n (fill slot k x)) =? 0) eqn:R.
  - apply Nat.eqb_eq in R. cbn [remaining at_slots] in R. lia.
  - now apply (IH (fill slot k x) i).
Qed.

(** The whole rejects with the error of the first promise that settles by
    rejection. *)
Lemma all_run_first_rejection :
  forall (outcome : nat -> JsError + T) n pre (slot : nat -> option T) j e rest,
    j < n -> slot j = None -> outcome j = inl e ->
    (forall k, In k pre -> k < n -> exists x, outcome k = inr x) ->
    all_run outcome (at_slots n slot) (pre ++ j :: rest) = Some (inl e).
Proof.
  intros outcome n. induction pre as [|k pre IH];
    intros slot j e rest Hj Hs He Hok.
  - cbn [app]. rewrite all_run_step.
    destruct (Nat.ltb_spec j n) as [_|H]; [|lia].
    rewrite Hs, He. reflexivity.
  - assert (Hok' : forall k', In k' pre -> k' < n -> exists x, outcome k' = inr x)
      by (intros k' Hk'; apply Hok; now right).
    cbn [app]. rewrite all_run_step.
    destruct (Nat.ltb_spec k n) as [Hk|Hk]; cbn [andb];
      [|now apply IH].
    destruct (slot k) eqn:Sk; cbn [is_none]; [now apply IH|].
    destruct (Hok k (or_introl eq_refl) Hk) as [x Hx]. rewrite Hx.
    assert (Hjk : j <> k) by congruence.
    assert (Hf : fill slot k x j = None).
    { unfold fill. destruct (Nat.eqb_spec j k); [contradiction | exact Hs]. }
    pose proof (count_pos T (fill slot k x) j n Hj Hf) as Hpos.
    destruct (remaining (at_slots n (fill slot k x)) =? 0) eqn:R.
    + apply Nat.eqb_eq in R. cbn [remaining at_slots] in R. lia.
    + now apply IH.
Qed.
End AllMore.

Lemma callback_inr : forall env j,
  (exists res, Home.call env j = inr res) ->
  exists x, Home.callback env j = inr x.
Proof.
  intros env j [res H]. unfold Home.callback. rewrite H. now eexists.
Qed.

(** X4: once past its guard and the constructor, [generateCode] issues
    exactly [concurrentRequests] requests, all equal, whatever the calls answer
    and in whatever order they settle (also when the batch fails or hangs). *)
Theorem generateCode_issues_all_requests :
  forall (s : Home.HomeState) (env : Home.CodeEnv),
    Home.truthy (Home.imageBase64 s) = true ->
    Home.code_client env = None ->
    Home.trace (Home.generateCode s env)
    = repeat (GenerateContent (Home.codeRequest s)) (Home.concurrentRequests s).
Proof.
  intros s env Hg Hc. rewrite (generateCode_body s env Hg Hc). cbv zeta.
  now destruct (promise_all _ _ _).
Qed.

(** X5: [generateCode] changes no state of [Home] other than [loading],
    [outputs] and [errorInfo]; [handleChat] none other than [loading],
    [userInput], [chatMessages] and [errorInfo]; [generateMedia] none other
    than [loading], [generatedMedia] and [errorInfo]. *)
Theorem operations_frame :
  forall s : Home.HomeState,
    (forall env,
       Home.setLoading (Home.loading s)
         (Home.setOutputs (Home.outputs s)
            (Home.setErrorInfo (Home.errorInfo s)
               (Home.state (Home.generateCode s env)))) = s)
    /\ (forall env,
          Home.setLoading (Home.loading s)
            (Home.setUserInput (Home.userInput s)
               (Home.setChatMessages (fun _ => Home.chatMessages s)
                  (Home.setErrorInfo (Home.errorInfo s)
                     (Home.state (Home.handleChat s env))))) = s)
    /\ (forall env,
          Home.setLoading (Home.loading s)
            (Home.setGeneratedMedia (fun _ => Home.generatedMedia s)
               (Home.setErrorInfo (Home.errorInfo s)
                  (Home.state (Home.generateMedia s env)))) = s).
Proof.
  intro s. destruct s. repeat split; intro env.
  - unfold Home.generateCode. cbn [Home.imageBase64].
    destruct (negb (Home.truthy _)); [reflexivity|].
    destruct (Home.code_client env); [reflexivity|].
    destruct (promise_all _ _ _); reflexivity.
  - unfold Home.handleChat. cbn [Home.userInput].
    destruct (negb (Home.truthy _)); [reflexivity|].
    destruct (Home.chat_client env); [reflexivity|].
    destruct (Home.chat_call env); reflexivity.
  - unfold Home.generateMedia.
    destruct (Home.media_client env); [reflexivity|].
    cbn [Home.mediaType]. destruct mediaType.
    + unfold Home.contentBranch. destruct (Home.content_call env) as [|e|res];
        try reflexivity.
      unfold Home.afterContent. cbn [Home.state].
      destruct (inlineLookup res); reflexivity.
    + unfold Home.videoBranch. destruct (Home.submit env) as [|e|op];
        try reflexivity.
      destruct (Home.poll_loop (Home.polls env) op) as [[res|e|] t];
        try reflexivity.
      unfold Home.resolveVideo. destruct (Home.fetch_result env);
        try reflexivity.
      destruct (Home.blob_result env); reflexivity.
    + unfold Home.contentBranch. destruct (Home.content_call env) as [|e|res];
        try reflexivity.
      unfold Home.afterContent. cbn [Home.state].
      destruct (inlineLookup res); reflexivity.
Qed.

(** X6: when one call of the batch never settles and the calls that settle
    all answer, [generateCode] never gets past [Promise.all]: [loading] stays
    true and neither [outputs] nor [errorInfo] changes. *)
Theorem generateCode_hangs_with_a_hung_call :
  forall (s : Home.HomeState) (env : Home.CodeEnv) (i : nat),
    Home.truthy (Home.imageBase64 s) = true ->
    Home.code_client env = None ->
    i < Home.concurrentRequests s ->
    ~ In i (Home.settle_order env) ->
    (forall j, In j (Home.settle_order env) -> j < Home.concurrentRequests s ->
               exists res, Home.call env j = inr res) ->
    let r := Home.generateCode s env in
    Home.completion r = Pending
    /\ Home.loading (Home.state r) = true
    /\ Home.outputs (Home.state r) = Home.outputs s
    /\ Home.errorInfo (Home.state r) = Home.errorInfo s.
Proof.
  intros s env i Hg Hc Hi Hnot Hok r. subst r.
  rewrite (generateCode_body s env Hg Hc). cbv zeta.
  unfold promise_all. destruct (Nat.eqb_spec (Home.concurrentRequests s) 0);
    [lia|].
  rewrite all_init_slots.
  rewrite (all_run_pending _ (Home.callback env) _ _ (fun _ => None) i Hi
             eq_refl Hnot).
  - now repeat split.
  - intros j Hj Hjn. apply callback_inr. now apply Hok.
Qed.

(** X7: the error [generateCode] reports is the error of the call that is
    the first to settle by rejection, whatever settles after it. *)
Theorem generateCode_reports_first_rejection :
  forall (s : Home.HomeState) (env : Home.CodeEnv)
         (pre rest : list nat) (j : nat) (e : JsError),
    Home.truthy (Home.imageBase64 s) = true ->
    Home.code_client env = None ->
    Home.settle_order env = pre ++ j :: rest ->
    j < Home.concurrentRequests s ->
    Home.call env j = inl e ->
    (forall k, In k pre -> k < Home.concurrentRequests s ->
               exists res, Home.call env k = inr res) ->
    Home.errorInfo (Home.state (Home.generateCode s env)) = Some e.
Proof.
  intros s env pre rest j e Hg Hc Ho Hj He Hok.
  rewrite (generateCode_body s env Hg Hc). cbv zeta.
  unfold promise_all. destruct (Nat.eqb_spec (Home.concurrentRequests s) 0);
    [lia|].
  rewrite all_init_slots, Ho.
  rewrite (all_run_first_rejection _ (Home.callback env) _ pre (fun _ => None)
             j e rest Hj eq_refl).
  - reflexivity.
  - unfold Home.callback. now rewrite He.
  - intros k Hk Hkn. apply callback_inr. now apply Hok.
Qed.

(** *** [onCodeChange] *)

(** X8: [onCodeChange] keeps the ids, the order and the full responses of
    the candidates, sets the code of exactly the candidates with the given id,
    and changes nothing when no candidate has that id. *)
Theorem onCodeChange_touches_code_only :
  forall (i : Z) (c : jsstring) (o : list Home.Candidate),
    map Home.id (Home.onCodeChange i c o) = map Home.id o
    /\ map Home.fullResponse (Home.onCodeChange i c o)
       = map Home.fullResponse o
    /\ (forall k x, nth_error o k = Some x ->
          nth_error (map Home.code (Home.onCodeChange i c o)) k
          = Some (if (Home.id x =? i)%Z then c else Home.code x))
    /\ (~ In i (map Home.id o) -> Home.onCodeChange i c o = o).
Proof.
  intros i c o. unfold Home.onCodeChange. repeat split.
  - rewrite map_map. apply map_ext. intro x.
    now destruct (Home.id x =? i)%Z.
  - rewrite map_map. apply map_ext. intro x.
    now destruct (Home.id x =? i)%Z.
  - intros k x H. rewrite map_map.
    rewrite (map_nth_error _ _ _ H). now destruct (Home.id x =? i)%Z.
  - intro H. induction o as [|x o IH]; [reflexivity|].
    cbn [map]. destruct (Z.eqb_spec (Home.id x) i) as [E|E].
    + exfalso. apply H. left. exact E.
    + f_equal. apply IH. intro Hin. apply H. now right.
Qed.

(** X9: for one id the last edit wins, and edits of candidates with
    different ids commute. *)
Theorem onCodeChange_last_write_wins :
  forall (i j : Z) (c1 c2 : jsstring) (o : list Home.Candidate),
    Home.onCodeChange i c2 (Home.onCodeChange i c1 o) = Home.onCodeChange i c2 o
    /\ (i <> j ->
        Home.onCodeChange i c1 (Home.onCodeChange j c2 o)
        = Home.onCodeChange j c2 (Home.onCodeChange i c1 o)).
Proof.
  intros i j c1 c2 o. unfold Home.onCodeChange. split.
  - rewrite map_map. apply map_ext. intro x.
    destruct (Z.eqb_spec (Home.id x) i) as [E|E]; cbn [Home.id].
    + now rewrite E, Z.eqb_refl.
    + destruct (Z.eqb_spec (Home.id x) i); [contradiction | reflexivity].
  - intro Hij. rewrite !map_map. apply map_ext. intro x.
    destruct (Z.eqb_spec (Home.id x) j) as [Ej|Ej];
      destruct (Z.eqb_spec (Home.id x) i) as [Ei|Ei]; cbn [Home.id];
      try congruence.
    + destruct (Z.eqb_spec (Home.id x) j); [|contradiction].
      destruct (Z.eqb_spec (Home.id x) i); [contradiction | reflexivity].
    + destruct (Z.eqb_spec (Home.id x) i); [|contradiction].
      destruct (Z.eqb_spec (Home.id x) j); [contradiction | reflexivity].
    + destruct (Z.eqb_spec (Home.id x) i); [contradiction|].
      destruct (Z.eqb_spec (Home.id x) j); [contradiction | reflexivity].
Qed.

(** *** [handleChat] *)

Lemma trimStart_all_space : forall s,
  Forall (fun c => is_space c = true) s -> trimStart s = [].
Proof.
  induction s as [|c r IH]; intro H; [reflexivity|].
  apply Forall_cons_iff in H as [Hc Hr]. cbn [trimStart]. rewrite Hc.
  now apply IH.
Qed.

Lemma trimEnd_nonempty : forall c r,
  is_space c = false -> trimEnd (c :: r) <> [].
Proof.
  intros c r H. destruct (trimEnd_head c r H) as [t ->]. discriminate.
Qed.

Lemma trim_empty_iff : forall s,
  trim s = [] <-> Forall (fun c => is_space c = true) s.
Proof.
  intro s. split.
  - unfold trim. induction s as [|c r IH]; intro H; [constructor|].
    cbn [trimStart] in H. destruct (is_space c) eqn:E.
    + constructor; [exact E | now apply IH].
    + exfalso. exact (trimEnd_nonempty c r E H).
  - intro H. unfold trim. now rewrite (trimStart_all_space s H).
Qed.

(** X10: [handleChat] does nothing at all when the input holds only white
    space, and sends exactly one request, for the trimmed input, as soon as it
    holds anything else (and the client is constructed). *)
Theorem handleChat_blank_input_does_nothing :
  forall (s : Home.HomeState) (env : Home.ChatEnv),
    (Forall (fun c => is_space c = true) (Home.userInput s) ->
     Home.handleChat s env
     = {| Home.state := s; Home.completion := Returned; Home.trace := [] |})
    /\ (Exists (fun c => is_space c = false) (Home.userInput s) ->
        Home.chat_client env = None ->
        Home.trace (Home.handleChat s env)
        = [GenerateContent (Home.chatRequest s (trim (Home.userInput s)))]).
Proof.
  intros s env. split.
  - intro H. unfold Home.handleChat.
    now rewrite (proj2 (trim_empty_iff _) H).
  - intros H Hc. unfold Home.handleChat.
    destruct (trim (Home.userInput s)) as [|c t] eqn:E.
    + exfalso. apply trim_empty_iff in E. apply Exists_exists in H.
      destruct H as (c & Hin & Hc'). rewrite Forall_forall in E.
      specialize (E c Hin). congruence.
    + cbn [Home.truthy negb]. rewrite Hc.
      now destruct (Home.chat_call env).
Qed.

(** X11: past its guard, [handleChat] clears the input and appends the
    trimmed question to the transcript before the call; the answer is appended
    after it when the call fulfils, with the grounding links of the response;
    when the call is rejected the question stays, no answer is added and the
    error is reported. *)
Theorem handleChat_transcript :
  forall (s : Home.HomeState) (env : Home.ChatEnv),
    Home.truthy (trim (Home.userInput s)) = true ->
    Home.chat_client env = None ->
    let r := Home.handleChat s env in
    let asked := {| Home.role := Home.user;
                    Home.content := trim (Home.userInput s);
                    Home.grounding := None |} in
    Home.userInput (Home.state r) = []
    /\ match Home.chat_call env with
       | Resolves res =>
           Home.chatMessages (Home.state r)
           = Home.chatMessages s
             ++ [asked;
                 {| Home.role := Home.assistant;
                    Home.content := Home.or_empty (text res);
                    Home.grounding :=
                      option_map Home.groundingOf (groundingChunks res) |}]
           /\ Home.errorInfo (Home.state r) = Home.errorInfo s
           /\ Home.completion r = Returned
       | Rejects e =>
           Home.chatMessages (Home.state r) = Home.chatMessages s ++ [asked]
           /\ Home.errorInfo (Home.state r) = Some e
           /\ Home.completion r = Returned
       | Never =>
           Home.chatMessages (Home.state r) = Home.chatMessages s ++ [asked]
           /\ Home.errorInfo (Home.state r) = Home.errorInfo s
           /\ Home.completion r = Pending
       end.
Proof.
  intros s env Hg Hc r asked. subst r asked. unfold Home.handleChat.
  rewrite (truthy_true _ Hg), Hc.
  destruct (Home.chat_call env) as [|e|res]; cbn.
  - now repeat split.
  - now repeat split.
  - rewrite <- app_assoc. now repeat split.
Qed.

(** *** [generateMedia] *)

Lemma poll_loop_failure : forall pre e rest op,
  done op = false ->
  Forall (fun r => done r = false) pre ->
  Home.poll_loop (map inr pre ++ inl e :: rest) op
  = (Home.PollFailed e,
     flat_map (fun h => [Sleep 5000; GetVideosOperation h]) (op :: pre)).
Proof.
  induction pre as [|r pre IH]; intros e rest op Hop Hpre.
  - cbn. now rewrite Hop.
  - apply Forall_cons_iff in Hpre as [Hr Hpre].
    cbn [map app]. rewrite poll_loop_next by exact Hop.
    now rewrite (IH e rest r Hr Hpre).
Qed.

Lemma poll_loop_hung : forall answers op,
  done op = false ->
  Forall (fun r => done r = false) answers ->
  Home.poll_loop (map inr answers) op
  = (Home.PollHung,
     flat_map (fun h => [Sleep 5000; GetVideosOperation h]) (op :: answers)).
Proof.
  induction answers as [|r answers IH]; intros op Hop Hall.
  - cbn. now rewrite Hop.
  - apply Forall_cons_iff in Hall as [Hr Hall].
    cbn [map]. rewrite poll_loop_next by exact Hop.
    now rewrite (IH r Hr Hall).
Qed.

Lemma polls_of_flat_map : forall l,
  filter Home.is_poll
    (flat_map (fun h => [Sleep 5000; GetVideosOperation h]) l)
  = map GetVideosOperation l
  /\ filter Home.is_fetch
       (flat_map (fun h => [Sleep 5000; GetVideosOperation h]) l) = [].
Proof.
  induction l as [|h l [IH1 IH2]]; [now split|].
  cbn. now rewrite IH1, IH2.
Qed.

(** X12: a status fetch that fails ends the video job at once: the error
    is reported, [loading] is cleared, no media is added, no further status
    fetch is made and the result is never fetched. *)
Theorem poll_failure_ends_the_job :
  forall (s : Home.HomeState) (env : Home.MediaEnv) (op : Operation)
         (pre : list Operation) (e : JsError)
         (rest : list (JsError + Operation)),
    Home.media_client env = None ->
    Home.mediaType s = Home.video_media ->
    Home.submit env = Resolves op ->
    done op = false ->
    Forall (fun r => done r = false) pre ->
    Home.polls env = map inr pre ++ inl e :: rest ->
    let r := Home.generateMedia s env in
    Home.completion r = Returned
    /\ Home.errorInfo (Home.state r) = Some e
    /\ Home.loading (Home.state r) = false
    /\ Home.generatedMedia (Home.state r) = Home.generatedMedia s
    /\ filter Home.is_poll (Home.trace r) = map GetVideosOperation (op :: pre)
    /\ filter Home.is_fetch (Home.trace r) = [].
Proof.
  intros s env op pre e rest Hc Hm Hs Hop Hpre Hp r. subst r.
  unfold Home.generateMedia. rewrite Hc, Hm. unfold Home.videoBranch.
  rewrite Hs, Hp, (poll_loop_failure pre e rest op Hop Hpre).
  cbn [Home.state Home.completion Home.trace app filter Home.is_poll
       Home.is_fetch].
  destruct (polls_of_flat_map (op :: pre)) as [H1 H2]. rewrite H1, H2.
  now repeat split.
Qed.

(** X13: the poll loop has no bound: as long as the job is reported not
    done it polls again, once more than the number of answers received, and
    [loading] stays true. *)
Theorem polling_never_gives_up :
  forall (s : Home.HomeState) (env : Home.MediaEnv) (op : Operation)
         (answers : list Operation),
    Home.media_client env = None ->
    Home.mediaType s = Home.video_media ->
    Home.submit env = Resolves op ->
    done op = false ->
    Forall (fun r => done r = false) answers ->
    Home.polls env = map inr answers ->
    let r := Home.generateMedia s env in
    Home.completion r = Pending
    /\ Home.loading (Home.state r) = true
    /\ filter Home.is_poll (Home.trace r)
       = map GetVideosOperation (op :: answers)
    /\ length (filter Home.is_poll (Home.trace r)) = S (length answers).
Proof.
  intros s env op answers Hc Hm Hs Hop Hall Hp r. subst r.
  unfold Home.generateMedia. rewrite Hc, Hm. unfold Home.videoBranch.
  rewrite Hs, Hp, (poll_loop_hung answers op Hop Hall).
  cbn [Home.state Home.completion Home.trace app filter Home.is_poll].
  destruct (polls_of_flat_map (op :: answers)) as [H1 _]. rewrite H1.
  repeat split. cbn [map length]. now rewrite length_map.
Qed.

(** X14: a job that is already done when it is submitted is neither waited
    for nor polled; its result is fetched once. *)
Theorem job_done_at_submission_is_not_polled :
  forall (s : Home.HomeState) (env : Home.MediaEnv) (op : Operation),
    Home.media_client env = None ->
    Home.mediaType s = Home.video_media ->
    Home.submit env = Resolves op ->
    done op = true ->
    let r := Home.generateMedia s env in
    filter Home.is_poll (Home.trace r) = []
    /\ ~ In (Sleep 5000) (Home.trace r)
    /\ filter Home.is_fetch (Home.trace r) = [Fetch (Home.videoUrl op env)].
Proof.
  intros s env op Hc Hm Hs Hd r. subst r.
  unfold Home.generateMedia. rewrite Hc, Hm. unfold Home.videoBranch.
  rewrite Hs, (poll_loop_done _ _ Hd). unfold Home.resolveVideo.
  destruct (Home.fetch_result env); cbn;
    try (repeat split; try reflexivity; intros [H|[H|[]]]; discriminate H).
  destruct (Home.blob_result env); cbn; repeat split; try reflexivity;
    intro H; repeat (destruct H as [H|H]; [discriminate H|]); exact H.
Qed.

(** X15: [generateMedia] never drops or reorders media: the new list is the
    old one with at most one item put in front, and an item is added only by a
    run that returns without reporting an error. *)
Theorem generatedMedia_only_grows :
  forall (s : Home.HomeState) (env : Home.MediaEnv),
    let r := Home.generateMedia s env in
    exists added,
      Home.generatedMedia (Home.state r) = added ++ Home.generatedMedia s
      /\ length added <= 1
      /\ (added <> [] ->
          Home.completion r = Returned
          /\ Home.loading (Home.state r) = false
          /\ Home.errorInfo (Home.state r) = Home.errorInfo s).
Proof.
  intros s env r. subst r. unfold Home.generateMedia.
  assert (Hnone : forall st c t,
             Home.generatedMedia st = Home.generatedMedia s ->
             exists added,
               Home.generatedMedia
                 (Home.state {| Home.state := st; Home.completion := c;
                                Home.trace := t |})
               = added ++ Home.generatedMedia s
               /\ length added <= 1
               /\ (added <> [] ->
                   c = Returned /\ Home.loading st = false
                   /\ Home.errorInfo st = Home.errorInfo s)).
  { intros st c t H. exists []. cbn. split; [exact H|]. split; [lia|].
    intro E. now contradiction E. }
  assert (Hcontent : forall req,
             exists added,
               Home.generatedMedia
                 (Home.state (Home.contentBranch req (Home.setLoading true s) env))
               = added ++ Home.generatedMedia s
               /\ length added <= 1
               /\ (added <> [] ->
                   Home.completion
                     (Home.contentBranch req (Home.setLoading true s) env)
                   = Returned
                   /\ Home.loading
                        (Home.state
                           (Home.contentBranch req (Home.setLoading true s) env))
                      = false
                   /\ Home.errorInfo
                        (Home.state
                           (Home.contentBranch req (Home.setLoading true s) env))
                      = Home.errorInfo s)).
  { intro req. unfold Home.contentBranch.
    destruct (Home.content_call env) as [|e|res];
      [now apply Hnone | now apply Hnone |].
    unfold Home.afterContent. destruct (inlineLookup res) as [e| |d];
      [now apply Hnone | now apply Hnone |].
    eexists [_]. cbn. split; [reflexivity|]. split; [lia|]. now intros _. }
  destruct (Home.media_client env); [now apply Hnone|].
  destruct (Home.mediaType s); [apply Hcontent | | apply Hcontent].
  unfold Home.videoBranch.
  destruct (Home.submit env) as [|e|op]; [now apply Hnone | now apply Hnone |].
  destruct (Home.poll_loop (Home.polls env) op) as [[res|e|] t];
    [| now apply Hnone | now apply Hnone].
  unfold Home.resolveVideo.
  destruct (Home.fetch_result env); [now apply Hnone | now apply Hnone |].
  destruct (Home.blob_result env); [now apply Hnone | now apply Hnone |].
  eexists [_]. cbn. split; [reflexivity|]. split; [lia|]. now intros _.
Qed.

(** X16: with no image loaded, the image mode sends the prompt alone, while
    the edit mode still sends an image part, with undefined data, before the
    prompt. *)
Theorem media_request_without_image :
  forall (s : Home.HomeState) (env : Home.MediaEnv),
    Home.imageBase64 s = [] ->
    Home.media_client env = None ->
    (Home.mediaType s = Home.image_media ->
     exists r, Home.trace (Home.generateMedia s env) = [GenerateContent r]
               /\ parts r = [TextPart (Home.userInput s)])
    /\ (Home.mediaType s = Home.edit_media ->
        exists r, Home.trace (Home.generateMedia s env) = [GenerateContent r]
                  /\ parts r = [InlineDataPart None Home.image_jpeg;
                                TextPart (Home.userInput s)]).
Proof.
  intros s env Hi Hc. unfold Home.generateMedia. rewrite Hc.
  split; intro Hm; rewrite Hm; unfold Home.contentBranch.
  - exists (Home.imageRequest s). split.
    + now destruct (Home.content_call env).
    + unfold Home.imageRequest. cbn [parts]. now rewrite Hi.
  - exists (Home.editRequest s). split.
    + now destruct (Home.content_call env).
    + unfold Home.editRequest, Home.imagePart. cbn [parts]. now rewrite Hi.
Qed.

(** *** Delivery of status messages *)

Lemma nth_error_dispatch_tsx : forall m host k,
  nth_error (Tsx.dispatch m host) k
  = option_map (fun c => withUi (Tsx.handleMessage (Home.id (output c)) m) c)
               (nth_error host k).
Proof. intros m host k. unfold Tsx.dispatch. apply nth_error_map. Qed.

Lemma nth_error_dispatch_jsx : forall m host k,
  nth_error (Jsx.dispatch m host) k
  = option_map (fun c => withUi (Jsx.handleMessage (Home.id (output c)) m) c)
               (nth_error host k).
Proof. intros m host k. unfold Jsx.dispatch. apply nth_error_map. Qed.

Lemma nth_error_deliverTsx : forall msgs host k c,
  nth_error host k = Some c ->
  nth_error (deliverTsx msgs host) k
  = Some (withUi (fun p => fold_left
                             (fun q m => Tsx.handleMessage (Home.id (output c)) m q)
                             msgs p) c).
Proof.
  unfold deliverTsx. induction msgs as [|m msgs IH]; intros host k c H.
  - cbn. rewrite H. now destruct c.
  - cbn [fold_left].
    rewrite (IH (Tsx.dispatch m host) k
               (withUi (Tsx.handleMessage (Home.id (output c)) m) c)).
    + now destruct c.
    + now rewrite nth_error_dispatch_tsx, H.
Qed.

Lemma nth_error_deliverJsx : forall msgs host k c,
  nth_error host k = Some c ->
  nth_error (deliverJsx msgs host) k
  = Some (withUi (fun p => fold_left
                             (fun q m => Jsx.handleMessage (Home.id (output c)) m q)
                             msgs p) c).
Proof.
  unfold deliverJsx. induction msgs as [|m msgs IH]; intros host k c H.
  - cbn. rewrite H. now destruct c.
  - cbn [fold_left].
    rewrite (IH (Jsx.dispatch m host) k
               (withUi (Jsx.handleMessage (Home.id (output c)) m) c)).
    + now destruct c.
    + now rewrite nth_error_dispatch_jsx, H.
Qed.

Lemma tsx_handleMessage_status : forall i s t p,
  sketchStatus (Tsx.handleMessage i (SketchStatus s t i) p) = s
  /\ selectedLibs (Tsx.handleMessage i (SketchStatus s t i) p) = selectedLibs p.
Proof.
  intros i s t p. unfold Tsx.handleMessage. rewrite Z.eqb_refl.
  now destruct s.
Qed.

Lemma jsx_handleMessage_status : forall i s t p,
  sketchStatus (Jsx.handleMessage i (SketchStatus s t i) p) = s
  /\ selectedLibs (Jsx.handleMessage i (SketchStatus s t i) p) = selectedLibs p.
Proof.
  intros i s t p. unfold Jsx.handleMessage. rewrite Z.eqb_refl.
  now destruct s.
Qed.

(** X17: a status message never changes the output or the library selection
    of a component; it sets the status of the components whose id it carries
    and leaves every other component as it is. *)
Theorem dispatch_reaches_its_candidate :
  forall (s : Status) (t : jsstring) (i : Z) (host : list Mounted)
         (k : nat) (c : Mounted),
    nth_error host k = Some c ->
    (exists c',
        nth_error (Tsx.dispatch (SketchStatus s t i) host) k = Some c'
        /\ output c' = output c
        /\ selectedLibs (ui c') = selectedLibs (ui c)
        /\ (Home.id (output c) = i -> sketchStatus (ui c') = s)
        /\ (Home.id (output c) <> i -> c' = c))
    /\ (exists c',
           nth_error (Jsx.dispatch (SketchStatus s t i) host) k = Some c'
           /\ output c' = output c
           /\ selectedLibs (ui c') = selectedLibs (ui c)
           /\ (Home.id (output c) = i -> sketchStatus (ui c') = s)
           /\ (Home.id (output c) <> i -> c' = c)).
Proof.
  intros s t i host k c H. split.
  - rewrite nth_error_dispatch_tsx, H. cbn [option_map]. eexists.
    split; [reflexivity|]. split; [reflexivity|]. cbn [ui withUi].
    destruct (Z.eq_dec (Home.id (output c)) i) as [E|E].
    + rewrite E. destruct (tsx_handleMessage_status i s t (ui c)) as [H1 H2].
      repeat split; try assumption; [now intros _ | intro Hn; now contradiction Hn].
    + pose proof (tsx_handleMessage_other (Home.id (output c)) s t i (ui c)
                    (not_eq_sym E)) as Ho.
      rewrite Ho. repeat split; [intro; contradiction|].
      intros _. now apply withUi_same.
  - rewrite nth_error_dispatch_jsx, H. cbn [option_map]. eexists.
    split; [reflexivity|]. split; [reflexivity|]. cbn [ui withUi].
    destruct (Z.eq_dec (Home.id (output c)) i) as [E|E].
    + rewrite E. destruct (jsx_handleMessage_status i s t (ui c)) as [H1 H2].
      repeat split; try assumption; [now intros _ | intro Hn; now contradiction Hn].
    + pose proof (jsx_handleMessage_other (Home.id (output c)) s t i (ui c)
                    (not_eq_sym E)) as Ho.
      rewrite Ho. repeat split; [intro; contradiction|].
      intros _. now apply withUi_same.
Qed.

Lemma tsx_handleMessage_idem : forall i m p,
  Tsx.handleMessage i m (Tsx.handleMessage i m p) = Tsx.handleMessage i m p.
Proof.
  intros i [s t j|] p; [|reflexivity]. unfold Tsx.handleMessage.
  destruct (j =? i)%Z; [|reflexivity]. now destruct s.
Qed.

Lemma jsx_handleMessage_idem : forall i m p,
  Jsx.handleMessage i m (Jsx.handleMessage i m p) = Jsx.handleMessage i m p.
Proof.
  intros i [s t j|] p; [|reflexivity]. unfold Jsx.handleMessage.
  destruct (j =? i)%Z; [|reflexivity]. now destruct s.
Qed.

(** X18: delivering a message twice is the same as delivering it once. *)
Theorem dispatch_idempotent :
  forall (m : MessageData) (host : list Mounted),
    Tsx.dispatch m (Tsx.dispatch m host) = Tsx.dispatch m host
    /\ Jsx.dispatch m (Jsx.dispatch m host) = Jsx.dispatch m host.
Proof.
  intros m host. unfold Tsx.dispatch, Jsx.dispatch. rewrite !map_map.
  split; apply map_ext; intros [o u]; unfold withUi; cbn [output ui];
    f_equal.
  - apply tsx_handleMessage_idem.
  - apply jsx_handleMessage_idem.
Qed.

Lemma last_cons : forall (A : Type) l (a d : A), last (a :: l) d = last l a.
Proof.
  intros A. induction l as [|b l IH]; intros a d; [reflexivity|].
  change (last (a :: b :: l) d) with (last (b :: l) d).
  now rewrite (IH b d), (IH b a).
Qed.

Lemma fold_tsx_status : forall i msgs p,
  Forall (carries i) msgs ->
  sketchStatus (fold_left (fun q m => Tsx.handleMessage i m q) msgs p)
  = last (statuses msgs) (sketchStatus p).
Proof.
  intros i. induction msgs as [|m msgs IH]; intros p H; [reflexivity|].
  apply Forall_cons_iff in H as [(s & t & ->) H]. cbn [fold_left statuses].
  rewrite (IH _ H), last_cons.
  now rewrite (proj1 (tsx_handleMessage_status i s t p)).
Qed.

Lemma fold_jsx_status : forall i msgs p,
  Forall (carries i) msgs ->
  sketchStatus (fold_left (fun q m => Jsx.handleMessage i m q) msgs p)
  = last (statuses msgs) (sketchStatus p).
Proof.
  intros i. induction msgs as [|m msgs IH]; intros p H; [reflexivity|].
  apply Forall_cons_iff in H as [(s & t & ->) H]. cbn [fold_left statuses].
  rewrite (IH _ H), last_cons.
  now rewrite (proj1 (jsx_handleMessage_status i s t p)).
Qed.



(** X19: after a sequence of status messages for one candidate, its status
    is the status of the last message (the status it had when there was none). *)
Theorem delivery_last_write_wins :
  forall (msgs : list MessageData) (host : list Mounted) (k : nat)
         (c : Mounted),
    nth_error host k = Some c ->
    Forall (carries (Home.id (output c))) msgs ->
    (exists c', nth_error (deliverTsx msgs host) k = Some c'
                /\ output c' = output c
                /\ sketchStatus (ui c')
                   = last (statuses msgs) (sketchStatus (ui c)))
    /\ (exists c', nth_error (deliverJsx msgs host) k = Some c'
                   /\ output c' = output c
                   /\ sketchStatus (ui c')
                      = last (statuses msgs) (sketchStatus (ui c))).
Proof.
  intros msgs host k c H Hall. split.
  - rewrite (nth_error_deliverTsx msgs host k c H). eexists.
    split; [reflexivity|]. split; [reflexivity|]. cbn [ui withUi].
    now apply fold_tsx_status.
  - rewrite (nth_error_deliverJsx msgs host k c H). eexists.
    split; [reflexivity|]. split; [reflexivity|]. cbn [ui withUi].
    now apply fold_jsx_status.
Qed.


Lemma posts_of_app : forall a b, posts_of (a ++ b) = posts_of a ++ posts_of b.
Proof. intros a b. unfold posts_of. apply flat_map_app. Qed.







(** *** The status a run leaves *)

Lemma last_app_cons : forall (A : Type) (l l' : list A) a d,
  last (l ++ a :: l') d = last l' a.
Proof.
  intros A. induction l as [|b l IH]; intros l' a d.
  - apply last_cons.
  - cbn [app]. rewrite last_cons. apply IH.
Qed.

Lemma last_errors : forall (A : Type) (l : list A) d,
  last (map (fun _ => error) l) d = match l with [] => d | _ => error end.
Proof.
  intros A. induction l as [|x l IH]; intro d; [reflexivity|].
  cbn [map]. rewrite last_cons, IH. now destruct l.
Qed.

Lemma statuses_post : forall oid s t l,
  statuses (post oid s t :: l) = s :: statuses l.
Proof. reflexivity. Qed.

Lemma events_without_posts : forall oid l,
  posts_of l = [] ->
  statuses (events oid l) = map (fun _ => error) l
  /\ Forall (carries oid) (events oid l).
Proof.
  intros oid. induction l as [|[m|d] l IH]; intro H.
  - split; [reflexivity | constructor].
  - destruct (IH H) as [IH1 IH2].
    change (events oid (Uncaught m :: l))
      with (post oid error m :: events oid l).
    split.
    + rewrite statuses_post, IH1. reflexivity.
    + constructor; [now exists error, m | exact IH2].
  - discriminate H.
Qed.

Lemma silent_parts : forall b : Sketch,
  sketch_messages b = [] ->
  posted_sync b = [] /\ posts_of (before_timer b) = []
  /\ posts_of (after_timer b) = []
  /\ posts_of (before_timer b ++ after_timer b) = [].
Proof.
  intros b H. unfold sketch_messages in H.
  apply app_eq_nil in H as [H1 H2]. pose proof H2 as H3.
  rewrite posts_of_app in H3. apply app_eq_nil in H3 as [H3 H4].
  now repeat split.
Qed.

(** The statuses of the run of a sketch that keeps the [post] of the script
    and posts nothing by itself, and the id they carry. *)
Lemma silent_srcDoc : forall sem o,
  let b := sem (Tsx.embedded (Home.code o)) in
  binding b = ScriptPost -> sketch_messages b = [] ->
  Forall (carries (Home.id o)) (Tsx.srcDoc sem o)
  /\ statuses (Tsx.srcDoc sem o)
     = if compiles b then
         loading
         :: match sync b with
            | Throws _ =>
                error :: map (fun _ => error) (before_timer b ++ after_timer b)
            | Diverges => []
            | Completes _ =>
                map (fun _ => error) (before_timer b)
                ++ (if timer_fires b then [success] else [])
                ++ map (fun _ => error) (after_timer b)
            end
       else [].
Proof.
  intros sem o b Hb Hs. subst b.
  apply silent_parts in Hs as (H1 & H2 & H3 & H4).
  destruct (events_without_posts (Home.id o) _ H2) as [S2 C2].
  destruct (events_without_posts (Home.id o) _ H3) as [S3 C3].
  destruct (events_without_posts (Home.id o) _ H4) as [S4 C4].
  unfold Tsx.srcDoc. rewrite Hb, H1. destruct (compiles _);
    [|split; [constructor | reflexivity]].
  cbn [app]. destruct (sync _).
  - split.
    + constructor; [now exists loading, []|].
      constructor; [now eexists error, _ | exact C4].
    + rewrite !statuses_post. now rewrite S4.
  - split.
    + constructor; [now exists loading, []|].
      apply Forall_app. split; [exact C2|]. apply Forall_app. split; [|exact C3].
      destruct (timer_fires _); repeat constructor. now exists success, [].
    + rewrite statuses_post, !statuses_app, S2, S3.
      now destruct (timer_fires _).
  - split; [|reflexivity]. constructor; [now exists loading, [] | constructor].
Qed.

Lemma silent_renderSketch : forall sem o,
  let b := sem (Jsx.wrappedCode (Home.code o)) in
  binding b = ScriptPost -> sketch_messages b = [] ->
  Forall (carries (Home.id o)) (Jsx.renderSketch sem o)
  /\ statuses (Jsx.renderSketch sem o)
     = if compiles b then
         loading
         :: match sync b with
            | Throws _ =>
                error :: map (fun _ => error) (before_timer b ++ after_timer b)
            | Diverges => []
            | Completes true =>
                map (fun _ => error) (before_timer b)
                ++ (if timer_fires b then [success] else [])
                ++ map (fun _ => error) (after_timer b)
            | Completes false =>
                error :: map (fun _ => error) (before_timer b ++ after_timer b)
            end
       else [].
Proof.
  intros sem o b Hb Hs. subst b.
  apply silent_parts in Hs as (H1 & H2 & H3 & H4).
  destruct (events_without_posts (Home.id o) _ H2) as [S2 C2].
  destruct (events_without_posts (Home.id o) _ H3) as [S3 C3].
  destruct (events_without_posts (Home.id o) _ H4) as [S4 C4].
  unfold Jsx.renderSketch. rewrite Hb, H1. destruct (compiles _);
    [|split; [constructor | reflexivity]].
  cbn [app]. destruct (sync _) as [m|[|]|].
  - split.
    + constructor; [now exists loading, []|].
      constructor; [now eexists error, _ | exact C4].
    + rewrite !statuses_post. now rewrite S4.
  - split.
    + constructor; [now exists loading, []|].
      apply Forall_app. split; [exact C2|]. apply Forall_app. split; [|exact C3].
      destruct (timer_fires _); repeat constructor. now exists success, [].
    + rewrite statuses_post, !statuses_app, S2, S3.
      now destruct (timer_fires _).
  - split.
    + constructor; [now exists loading, []|].
      constructor; [now eexists error, _ | exact C4].
    + rewrite !statuses_post. now rewrite S4.
  - split; [|reflexivity]. constructor; [now exists loading, [] | constructor].
Qed.

Lemma last_settled : forall (A B : Type) (before after : list A)
                            (fires : bool) (d : Status),
  last (map (fun _ => error) before
        ++ (if fires then [success] else [])
        ++ map (fun _ => error) after) d
  = match after with
    | _ :: _ => error
    | [] => if fires then success
            else match before with
                 | [] => d
                 | _ :: _ => error
                 end
    end.
Proof.
  intros A B before after fires d. destruct after as [|a after].
  - cbn [map]. rewrite app_nil_r. destruct fires.
    + apply last_app_cons.
    + rewrite app_nil_r. apply last_errors.
  - destruct fires.
    + change ([success] ++ map (fun _ => error) (a :: after))
        with (success :: map (fun _ => error) (a :: after)).
      rewrite last_app_cons. apply last_errors.
    + cbn [app map]. rewrite last_app_cons. rewrite last_errors.
      now destruct after.
Qed.

(** X21: the status a run leaves on its own component once the evaluation of
    the script has ended, when the sketch keeps the [post] of the script and
    posts nothing by itself: unchanged when the script does not compile;
    [error] when the evaluation throws (or, in the JavaScript version, finds
    no [setup]); otherwise [error] when an uncaught error arrives after the
    timer, [success] when none does and the timer fired, and, when the timer
    never fires, [error] after an uncaught error and [loading] without one.
    An uncaught error that arrives before the timer is overwritten by
    [success]. *)
Theorem status_after_a_run :
  forall (sem : jsstring -> Sketch) (host : list Mounted) (k : nat)
         (c : Mounted),
    nth_error host k = Some c ->
    (let b := sem (Tsx.embedded (Home.code (output c))) in
     binding b = ScriptPost -> sketch_messages b = [] ->
     exists c',
       nth_error (deliverTsx (Tsx.srcDoc sem (output c)) host) k = Some c'
       /\ (compiles b = false -> sketchStatus (ui c') = sketchStatus (ui c))
       /\ (compiles b = true -> forall m, sync b = Throws m ->
           sketchStatus (ui c') = error)
       /\ (compiles b = true -> forall d, sync b = Completes d ->
           sketchStatus (ui c') = settled b))
    /\ (let b := sem (Jsx.wrappedCode (Home.code (output c))) in
        binding b = ScriptPost -> sketch_messages b = [] ->
        exists c',
          nth_error (deliverJsx (Jsx.renderSketch sem (output c)) host) k
          = Some c'
          /\ (compiles b = false -> sketchStatus (ui c') = sketchStatus (ui c))
          /\ (compiles b = true -> forall m, sync b = Throws m ->
              sketchStatus (ui c') = error)
          /\ (compiles b = true -> sync b = Completes false ->
              sketchStatus (ui c') = error)
          /\ (compiles b = true -> sync b = Completes true ->
              sketchStatus (ui c') = settled b)).
Proof.
  intros sem host k c H. split; intros b Hb Hs; subst b.
  - destruct (silent_srcDoc sem (output c) Hb Hs) as [Hc Hst].
    rewrite (nth_error_deliverTsx _ host k c H). eexists.
    split; [reflexivity|]. cbn [ui withUi].
    rewrite (fold_tsx_status _ _ _ Hc), Hst.
    split; [|split].
    + intros ->. reflexivity.
    + intros -> m ->. rewrite !last_cons, last_errors.
      now destruct (_ ++ _).
    + intros -> d ->. rewrite last_cons. apply (last_settled _ unit).
  - destruct (silent_renderSketch sem (output c) Hb Hs) as [Hc Hst].
    rewrite (nth_error_deliverJsx _ host k c H). eexists.
    split; [reflexivity|]. cbn [ui withUi].
    rewrite (fold_jsx_status _ _ _ Hc), Hst.
    split; [|split; [|split]].
    + intros ->. reflexivity.
    + intros -> m ->. rewrite !last_cons, last_errors.
      now destruct (_ ++ _).
    + intros -> ->. rewrite !last_cons, last_errors.
      now destruct (_ ++ _).
    + intros -> ->. rewrite last_cons. apply (last_settled _ unit).
Qed.

(** *** The wrapping of a sketch *)

Lemma includes_app_l : forall p a b,
  includes p a = true -> includes p (a ++ b) = true.
Proof.
  intros p. induction a as [|c a IH]; intros b H.
  - cbn in H. rewrite orb_false_r in H.
    apply (starts_with_mono p [] b) in H. cbn [app] in *.
    destruct b; cbn [includes]; now rewrite H.
  - cbn [includes app] in *. apply orb_true_iff in H as [H|H].
    + change (c :: a ++ b) with ((c :: a) ++ b).
      now rewrite (starts_with_mono _ _ b H).
    + rewrite (IH b H). apply orb_true_r.
Qed.

(** X22: the text placed in the sandbox always holds the marker the
    wrapping looks for ([setup], respectively [function setup()]), so wrapping
    an already wrapped text changes nothing. *)
Theorem wrapping_is_applied_once :
  forall code : jsstring,
    includes Tsx.setup_word (Tsx.embedded code) = true
    /\ Tsx.embedded (Tsx.embedded code) = Tsx.embedded code
    /\ includes Jsx.function_setup (Jsx.wrappedCode code) = true
    /\ Jsx.wrappedCode (Jsx.wrappedCode code) = Jsx.wrappedCode code.
Proof.
  intro code.
  assert (Ht : includes Tsx.setup_word (Tsx.embedded code) = true).
  { unfold Tsx.embedded. destruct (includes Tsx.setup_word code) eqn:E;
      [exact E|]. now apply includes_app_l. }
  assert (Hj : includes Jsx.function_setup (Jsx.wrappedCode code) = true).
  { unfold Jsx.wrappedCode. destruct (includes Jsx.function_setup code) eqn:E;
      [exact E|]. apply includes_app_l. vm_compute. reflexivity. }
  repeat split; try assumption.
  - unfold Tsx.embedded at 1. now rewrite Ht.
  - unfold Jsx.wrappedCode at 1. now rewrite Hj.
Qed.

(** *** Editing, then exporting *)

(** X23: after an edit, the export of the edited component carries the new
    text as [sketch.js], with the same [index.html] and the same full
    response; components with another id are untouched. *)
Theorem export_follows_the_editor :
  forall (host : list Mounted) (k : nat) (c : Mounted) (v : option jsstring),
    nth_error host k = Some c ->
    (exists c',
        nth_error (Tsx.editorOnChange k v host) k = Some c'
        /\ Tsx.zipFile Tsx.sketch_js (Tsx.handleDownload c')
           = Some (Home.or_empty v)
        /\ Tsx.zipFile Tsx.index_html (Tsx.handleDownload c')
           = Tsx.zipFile Tsx.index_html (Tsx.handleDownload c)
        /\ Home.fullResponse (output c') = Home.fullResponse (output c))
    /\ (forall j d,
          nth_error host j = Some d ->
          Home.id (output d) <> Home.id (output c) ->
          nth_error (Tsx.editorOnChange k v host) j = Some d).
Proof.
  intros host k c v H. unfold Tsx.editorOnChange. rewrite H.
  unfold Home.onCodeChange. rewrite rerender_map. split.
  - eexists. split; [apply map_nth_error; exact H|].
    cbn [output ui]. rewrite Z.eqb_refl. now repeat split.
  - intros j d Hd Hne. rewrite (map_nth_error _ _ _ Hd). f_equal.
    destruct (Z.eqb_spec (Home.id (output d)) (Home.id (output c)));
      [contradiction|]. now destruct d.
Qed.

(** *** Selecting libraries *)

Lemma eqb_js_eq : forall a b, eqb_js a b = true <-> a = b.
Proof.
  induction a as [|x a IH]; intros [|y b]; cbn; split; intro H;
    try reflexivity; try discriminate.
  - apply andb_true_iff in H as [H1 H2]. apply N.eqb_eq in H1.
    apply IH in H2. congruence.
  - injection H as -> ->. rewrite N.eqb_refl. cbn. now apply IH.
Qed.

Lemma eqb_js_refl : forall a, eqb_js a a = true.
Proof. intro a. now apply eqb_js_eq. Qed.

Lemma eqb_js_sym : forall a b, eqb_js a b = eqb_js b a.
Proof.
  intros a b. destruct (eqb_js a b) eqn:E.
  - apply eqb_js_eq in E. subst. symmetry. apply eqb_js_refl.
  - destruct (eqb_js b a) eqn:E'; [|reflexivity].
    apply eqb_js_eq in E'. subst. now rewrite eqb_js_refl in E.
Qed.

Lemma selected_In : forall i p, selected i p = true <-> In i p.
Proof.
  intros i p. unfold selected. rewrite existsb_exists. split.
  - intros (x & Hx & E). apply eqb_js_eq in E. now subst.
  - intro H. exists i. split; [exact H | apply eqb_js_refl].
Qed.

Lemma filter_other_all : forall lib p,
  ~ In lib p -> filter (fun i => negb (eqb_js i lib)) p = p.
Proof.
  intros lib. induction p as [|x p IH]; intro H; [reflexivity|].
  cbn [filter]. destruct (eqb_js x lib) eqn:E.
  - apply eqb_js_eq in E. exfalso. apply H. now left.
  - cbn [negb]. f_equal. apply IH. intro Hin. apply H. now right.
Qed.

(** X24: a click on a library button flips the selection of that library
    and of no other. *)
Theorem toggleLibrary_flips_one_library :
  forall (lib x : jsstring) (p : list jsstring),
    selected x (toggleLibrary lib p)
    = if eqb_js x lib then negb (selected lib p) else selected x p.
Proof.
  intros lib x p. unfold toggleLibrary.
  destruct (selected lib p) eqn:S.
  - destruct (eqb_js x lib) eqn:E.
    + apply eqb_js_eq in E. subst x. cbn [negb].
      destruct (selected lib (filter _ p)) eqn:F; [|reflexivity].
      apply selected_In in F. apply filter_In in F as [_ F].
      now rewrite eqb_js_refl in F.
    + clear S. unfold selected. induction p as [|y p IH]; [reflexivity|].
      cbn [filter existsb]. destruct (eqb_js y lib) eqn:Ey; cbn [negb].
      * apply eqb_js_eq in Ey. subst y. rewrite E. exact IH.
      * cbn [existsb]. now rewrite IH.
  - unfold selected in *. rewrite existsb_app. cbn [existsb].
    rewrite orb_false_r. destruct (eqb_js x lib) eqn:E.
    + apply eqb_js_eq in E. subst x. now rewrite S.
    + apply orb_false_r.
Qed.

Lemma toggleLibrary_NoDup : forall lib p,
  NoDup p -> NoDup (toggleLibrary lib p).
Proof.
  intros lib p H. unfold toggleLibrary. destruct (selected lib p) eqn:S.
  - now apply NoDup_filter.
  - apply NoDup_app; [exact H | repeat constructor; intros [] |].
    intros x Hx [<-|[]]. apply selected_In in Hx. congruence.
Qed.

Lemma toggleLibrary_In : forall lib p x,
  In x (toggleLibrary lib p) -> In x p \/ x = lib.
Proof.
  intros lib p x H. unfold toggleLibrary in H.
  destruct (selected lib p).
  - apply filter_In in H as [H _]. now left.
  - apply in_app_or in H as [H|[H|[]]]; [now left | now right].
Qed.

(** X25: toggling keeps a selection free of duplicates; a library that was
    not selected is added last, and a second click restores the selection;
    a selected library is gone after the click. *)
Theorem toggleLibrary_keeps_selection_well_formed :
  forall (lib : jsstring) (p : list jsstring),
    (NoDup p -> NoDup (toggleLibrary lib p))
    /\ (~ In lib p ->
        toggleLibrary lib p = p ++ [lib]
        /\ toggleLibrary lib (toggleLibrary lib p) = p)
    /\ (In lib p -> ~ In lib (toggleLibrary lib p)).
Proof.
  intros lib p. repeat split.
  - apply toggleLibrary_NoDup.
  - unfold toggleLibrary. destruct (selected lib p) eqn:S; [|reflexivity].
    apply selected_In in S. contradiction.
  - unfold toggleLibrary at 2. destruct (selected lib p) eqn:S.
    + apply selected_In in S. contradiction.
    + unfold toggleLibrary.
      replace (selected lib (p ++ [lib])) with true
        by (symmetry; apply selected_In, in_or_app; right; now left).
      rewrite filter_app, (filter_other_all lib p H). cbn [filter].
      rewrite eqb_js_refl. cbn. apply app_nil_r.
  - intros H Hin. unfold toggleLibrary in Hin.
    rewrite (proj2 (selected_In lib p) H) in Hin.
    apply filter_In in Hin as [_ Hin]. now rewrite eqb_js_refl in Hin.
Qed.

(** *** [handleExplain] *)

(** X26: the first [handleExplain] asks for an explanation of the current
    code; once an invocation has returned, the explanation is not empty and
    every later invocation, whatever the code has become and also after a
    failed call, sends no request and keeps the text. *)
Theorem explanation_is_asked_for_once :
  forall (code : jsstring) (p : Explain.ExplainState) (env : Explain.ExplainEnv),
    (Explain.explanation p = [] -> Explain.explain_client env = None ->
     Explain.asked (Explain.handleExplain code p env)
     = [Explain.explain_prompt ++ code])
    /\ (Explain.ended (Explain.handleExplain code p env) = Returned ->
        let p' := Explain.after (Explain.handleExplain code p env) in
        Explain.explanation p' <> []
        /\ Explain.view p' = Explain.explain
        /\ forall code' env',
             Explain.asked (Explain.handleExplain code' p' env') = []
             /\ Explain.explanation
                  (Explain.after (Explain.handleExplain code' p' env'))
                = Explain.explanation p').
Proof.
  intros code p env. split.
  - intros He Hc. unfold Explain.handleExplain. rewrite He, Hc. cbn.
    now destruct (Explain.explain_call env).
  - intros Hr p'.
    assert (Hcached : forall q, Explain.explanation q <> [] ->
              forall code' env',
                Explain.asked (Explain.handleExplain code' q env') = []
                /\ Explain.explanation
                     (Explain.after (Explain.handleExplain code' q env'))
                   = Explain.explanation q).
    { intros q Hq code' env'. unfold Explain.handleExplain.
      destruct (Explain.explanation q) as [|x t] eqn:E; [congruence|].
      cbn. now rewrite E. }
    assert (Hp' : Explain.explanation p' <> [] /\ Explain.view p' = Explain.explain).
    { subst p'. revert Hr. unfold Explain.handleExplain.
      destruct (Explain.explanation p) as [|x t] eqn:E; cbn.
      - destruct (Explain.explain_client env); cbn; [discriminate|].
        destruct (Explain.explain_call env) as [|e|res]; cbn;
          try discriminate; intros _; (split; [|reflexivity]).
        + discriminate.
        + destruct (Home.or_empty (text res)); cbn; discriminate.
      - intros _. rewrite E. split; [discriminate | reflexivity]. }
    destruct Hp' as [H1 H2]. split; [exact H1|]. split; [exact H2|].
    now apply Hcached.
Qed.

Lemma clickLibraries_invariant : forall clicks p,
  Forall (fun l => In l Tsx.LIBRARIES) clicks ->
  NoDup p ->
  (forall i, In i p -> exists l, In l Tsx.LIBRARIES /\ lib_id l = i) ->
  NoDup (clickLibraries clicks p)
  /\ (forall i, In i (clickLibraries clicks p) ->
                exists l, In l Tsx.LIBRARIES /\ lib_id l = i).
Proof.
  unfold clickLibraries. induction clicks as [|l clicks IH]; intros p Hc Hn Hi.
  - now split.
  - apply Forall_cons_iff in Hc as [Hl Hc]. cbn [fold_left].
    apply IH; [exact Hc | now apply toggleLibrary_NoDup |].
    intros i H. destruct (toggleLibrary_In _ _ _ H) as [H'| ->].
    + now apply Hi.
    + now exists l.
Qed.

(** X27: whatever library buttons are clicked, starting from the empty
    selection, the selection holds no duplicate, at most three ids, and only
    ids of the catalogue, so every script tag gets a catalogue url. *)
Theorem selection_stays_in_catalogue :
  forall clicks : list Library,
    Forall (fun l => In l Tsx.LIBRARIES) clicks ->
    let p := clickLibraries clicks [] in
    NoDup p
    /\ length p <= 3
    /\ (forall i, In i p ->
          exists l, find (fun l => eqb_js (lib_id l) i) Tsx.LIBRARIES = Some l
                    /\ lib_id l = i).
Proof.
  intros clicks Hc p.
  destruct (clickLibraries_invariant clicks [] Hc (NoDup_nil _))
    as [Hn Hi]; [intros i []|]. fold p in Hn, Hi.
  split; [exact Hn|]. split.
  - change 3 with (length (map lib_id Tsx.LIBRARIES)).
    apply NoDup_incl_length; [exact Hn|]. intros i H.
    destruct (Hi i H) as (l & Hl & <-). now apply in_map.
  - intros i H. destruct (Hi i H) as (l & Hl & E).
    destruct (find (fun l => eqb_js (lib_id l) i) Tsx.LIBRARIES) as [l'|] eqn:F.
    + exists l'. split; [reflexivity|].
      apply find_some in F as [_ F]. now apply eqb_js_eq in F.
    + exfalso. pose proof (find_none _ _ F l Hl) as N. cbn beta in N.
      rewrite E, eqb_js_refl in N. discriminate N.
Qed.

(* ================================================================= *)
(** * Instances of the further properties *)

Lemma extractCode_is_part_of_text_witness :
  (exists pre post, wrap_js sketch_x = pre ++ sketch_x ++ post)
  /\ length sketch_x <= length (wrap_js sketch_x).
Proof.
  destruct (proj2 extractCode_is_part_of_text s_image env_ok
              {| Home.id := 1700000000000; Home.code := sketch_x;
                 Home.fullResponse := wrap_js sketch_x |}) as [H|H].
  - left. reflexivity.
  - contradiction H.
  - exact H.
Defined.

(** An edit replaces [code] alone: after it the code of the candidate need
    not be a part of its full response any more. *)
Example edit_leaves_the_full_response :
  map (fun c => length (Home.code c) <=? length (Home.fullResponse c))
      (Home.onCodeChange 1700000000000 (wrap_js sketch_x ++ sketch_x)
         (Home.outputs (Home.state (Home.generateCode s_image env_ok))))
  = [false; true; true].
Proof. vm_compute. reflexivity. Qed.

Lemma imagePart_data_witness :
  Home.imagePart Home.initialState = InlineDataPart None Home.image_jpeg
  /\ Home.imagePart s_image = InlineDataPart (Some image_data) Home.image_jpeg.
Proof.
  split.
  - apply (proj1 (imagePart_data Home.initialState)). intros [].
  - apply (proj2 (imagePart_data s_image) image_head image_data).
    + reflexivity.
    + cbn. intro H. repeat (destruct H as [H|H]; [discriminate H|]). exact H.
    + cbn. intro H. repeat (destruct H as [H|H]; [discriminate H|]). exact H.
Defined.

Lemma generateCode_issues_all_requests_witness :
  length (Home.trace (Home.generateCode s_image env_fail)) = 3.
Proof.
  rewrite (generateCode_issues_all_requests s_image env_fail eq_refl eq_refl).
  reflexivity.
Defined.

Lemma generateCode_hangs_with_a_hung_call_witness :
  Home.completion (Home.generateCode s_image env_one_hung) = Pending
  /\ Home.loading (Home.state (Home.generateCode s_image env_one_hung)) = true.
Proof.
  destruct (generateCode_hangs_with_a_hung_call s_image env_one_hung 2)
    as (H1 & H2 & _).
  - reflexivity.
  - reflexivity.
  - cbn. lia.
  - cbn. intros [H|[H|[]]]; discriminate H.
  - intros j _ _. now eexists.
  - split; [exact H1 | exact H2].
Defined.

Lemma generateCode_reports_first_rejection_witness :
  Home.errorInfo (Home.state (Home.generateCode s_image env_fail)) = Some quota.
Proof.
  apply (generateCode_reports_first_rejection s_image env_fail [2] [0] 1 quota).
  - reflexivity.
  - reflexivity.
  - reflexivity.
  - cbn. lia.
  - reflexivity.
  - intros k [<-|[]] _. now eexists.
Defined.

Lemma onCodeChange_touches_code_only_witness :
  nth_error (map Home.code (Home.onCodeChange 8 program_with_fence two_outputs)) 1
  = Some program_with_fence
  /\ Home.onCodeChange 9 program_with_fence two_outputs = two_outputs.
Proof.
  destruct (onCodeChange_touches_code_only 8 program_with_fence two_outputs)
    as (_ & _ & H & _).
  destruct (onCodeChange_touches_code_only 9 program_with_fence two_outputs)
    as (_ & _ & _ & H').
  split.
  - exact (H 1 _ eq_refl).
  - apply H'. cbn. intros [E|[E|[]]]; discriminate E.
Defined.

Lemma onCodeChange_last_write_wins_witness :
  Home.onCodeChange 7 sketch_x (Home.onCodeChange 8 program_with_fence two_outputs)
  = Home.onCodeChange 8 program_with_fence (Home.onCodeChange 7 sketch_x two_outputs).
Proof.
  apply (proj2 (onCodeChange_last_write_wins 7 8 sketch_x program_with_fence
                  two_outputs)).
  discriminate.
Defined.

Lemma handleChat_blank_input_does_nothing_witness :
  Home.handleChat s_blank chat_ok
  = {| Home.state := s_blank; Home.completion := Returned; Home.trace := [] |}
  /\ length (Home.trace (Home.handleChat s_chat chat_ok)) = 1.
Proof.
  split.
  - apply (proj1 (handleChat_blank_input_does_nothing s_blank chat_ok)).
    repeat constructor.
  - rewrite (proj2 (handleChat_blank_input_does_nothing s_chat chat_ok)).
    + reflexivity.
    + apply Exists_cons_hd. reflexivity.
    + reflexivity.
Defined.

Lemma handleChat_transcript_witness :
  Home.userInput (Home.state (Home.handleChat s_chat chat_ok)) = [].
Proof.
  apply (handleChat_transcript s_chat chat_ok); reflexivity.
Defined.

Lemma poll_failure_ends_the_job_witness :
  Home.errorInfo (Home.state (Home.generateMedia s_video env_poll_fails))
  = Some quota
  /\ filter Home.is_fetch (Home.trace (Home.generateMedia s_video env_poll_fails))
     = [].
Proof.
  destruct (poll_failure_ends_the_job s_video env_poll_fails op0 [op1] quota
              [inr op3]) as (_ & H1 & _ & _ & _ & H2);
    try reflexivity.
  - repeat constructor.
  - split; [exact H1 | exact H2].
Defined.

Lemma polling_never_gives_up_witness :
  Home.completion (Home.generateMedia s_video env_never_done) = Pending
  /\ length (filter Home.is_poll
               (Home.trace (Home.generateMedia s_video env_never_done))) = 3.
Proof.
  destruct (polling_never_gives_up s_video env_never_done op0 [op1; op2])
    as (H1 & _ & _ & H2); try reflexivity.
  - repeat constructor.
  - split; [exact H1 | exact H2].
Defined.

Lemma job_done_at_submission_is_not_polled_witness :
  filter Home.is_poll (Home.trace (Home.generateMedia s_video env_done_at_once))
  = [].
Proof.
  apply (job_done_at_submission_is_not_polled s_video env_done_at_once op3);
    reflexivity.
Defined.

Lemma generatedMedia_only_grows_witness :
  exists added,
    Home.generatedMedia (Home.state (Home.generateMedia s_video env_video))
    = added ++ Home.generatedMedia s_video
    /\ length added <= 1.
Proof.
  destruct (generatedMedia_only_grows s_video env_video) as (added & H1 & H2 & _).
  exists added. split; [exact H1 | exact H2].
Defined.

Lemma media_request_without_image_witness :
  (exists r, Home.trace (Home.generateMedia Home.initialState env_hung)
             = [GenerateContent r]
             /\ parts r = [TextPart []])
  /\ (exists r, Home.trace (Home.generateMedia s_edit env_hung)
                = [GenerateContent r]
                /\ parts r = [InlineDataPart None Home.image_jpeg; TextPart []]).
Proof.
  split.
  - apply (proj1 (media_request_without_image Home.initialState env_hung
                    eq_refl eq_refl) eq_refl).
  - apply (proj2 (media_request_without_image s_edit env_hung eq_refl eq_refl)
             eq_refl).
Defined.

Lemma dispatch_reaches_its_candidate_witness :
  exists c',
    nth_error (Tsx.dispatch (SketchStatus error (of_string "boom") 8) two_mounted) 1
    = Some c'
    /\ sketchStatus (ui c') = error.
Proof.
  destruct (proj1 (dispatch_reaches_its_candidate error (of_string "boom") 8
                     two_mounted 1 c_eight eq_refl))
    as (c' & H1 & _ & _ & H2 & _).
  exists c'. split; [exact H1 | exact (H2 eq_refl)].
Defined.

Lemma delivery_last_write_wins_witness :
  exists c',
    nth_error (deliverTsx [SketchStatus loading [] 8; SketchStatus success [] 8]
                 two_mounted) 1 = Some c'
    /\ sketchStatus (ui c') = success.
Proof.
  destruct (proj1 (delivery_last_write_wins
                     [SketchStatus loading [] 8; SketchStatus success [] 8]
                     two_mounted 1 c_eight eq_refl
                     (Forall_cons _ (ex_intro _ loading (ex_intro _ [] eq_refl))
                        (Forall_cons _
                           (ex_intro _ success (ex_intro _ [] eq_refl))
                           (Forall_nil _)))))
    as (c' & H1 & _ & H2).
  exists c'. split; [exact H1 | exact H2].
Defined.


(** A sketch that posts a status with the id of another candidate changes
    the status of that candidate. *)
Example forged_status_reaches_another_candidate :
  option_map (fun c => sketchStatus (ui c))
    (nth_error (deliverTsx (Tsx.srcDoc sem_forges o_forges) two_mounted) 1)
  = Some error.
Proof. reflexivity. Qed.

Lemma status_after_a_run_witness :
  (exists c',
      nth_error (deliverTsx (Tsx.srcDoc sem_setup_throws (output c_throwing))
                   throwing_mounted) 0 = Some c'
      /\ sketchStatus (ui c') = success)
  /\ (exists c',
         nth_error (deliverJsx
                      (Jsx.renderSketch sem_setup_throws (output c_throwing))
                      throwing_mounted) 0 = Some c'
         /\ sketchStatus (ui c') = success).
Proof.
  destruct (status_after_a_run sem_setup_throws throwing_mounted 0 c_throwing
              eq_refl) as [Ht Hj].
  split.
  - destruct (Ht eq_refl eq_refl) as (c' & H1 & _ & _ & H2).
    exists c'. split; [exact H1 | exact (H2 eq_refl true eq_refl)].
  - destruct (Hj eq_refl eq_refl) as (c' & H1 & _ & _ & _ & H2).
    exists c'. split; [exact H1 | exact (H2 eq_refl eq_refl)].
Defined.

Lemma export_follows_the_editor_witness :
  exists c',
    nth_error (Tsx.editorOnChange 1 (Some program_with_fence) two_mounted) 1
    = Some c'
    /\ Tsx.zipFile Tsx.sketch_js (Tsx.handleDownload c')
       = Some program_with_fence.
Proof.
  destruct (proj1 (export_follows_the_editor two_mounted 1 c_eight
                     (Some program_with_fence) eq_refl))
    as (c' & H1 & H2 & _).
  exists c'. split; [exact H1 | exact H2].
Defined.

Lemma toggleLibrary_keeps_selection_well_formed_witness :
  toggleLibrary p5_play (toggleLibrary p5_play [p5_sound]) = [p5_sound]
  /\ NoDup (toggleLibrary p5_play [p5_sound]).
Proof.
  destruct (toggleLibrary_keeps_selection_well_formed p5_play [p5_sound])
    as (Hn & Ha & _).
  split.
  - apply Ha. cbn. intros [E|[]]. discriminate E.
  - apply Hn. repeat constructor. intros [].
Defined.

Lemma explanation_is_asked_for_once_witness :
  Explain.asked
    (Explain.handleExplain program_with_fence
       (Explain.after (Explain.handleExplain sketch_x fresh_explain explain_fails))
       explain_fails) = [].
Proof.
  apply (proj2 (explanation_is_asked_for_once sketch_x fresh_explain
                  explain_fails) eq_refl).
Defined.

Lemma selection_stays_in_catalogue_witness :
  NoDup (clickLibraries (Tsx.LIBRARIES ++ Tsx.LIBRARIES ++ Tsx.LIBRARIES) []).
Proof.
  apply (selection_stays_in_catalogue
           (Tsx.LIBRARIES ++ Tsx.LIBRARIES ++ Tsx.LIBRARIES)).
  apply Forall_forall. intros l H.
  apply in_app_or in H as [H|H]; [exact H|].
  apply in_app_or in H as [H|H]; exact H.
Defined.
